(** * The GitHub-to-Notion webhook route, [src/app/api/getgitcommit/route.ts]

    A shallow embedding of the route handler: the module-level
    configuration constants, [getISOTimeFiveMinutesAgo], [getCommit],
    [updateCommit] and [POST], together with the run-time pieces they
    call ([Date], [Promise.all], [axios], [NextResponse.json]).

    The handler talks to the outside world only through [axios] and
    [Date.now]; both are answered by a [World], and every outbound
    request is recorded, in the order it is issued, in the handler's
    state. *)

From Stdlib Require Import ZArith Lia Ascii String.
From stdpp Require Import base list sets strings.

#[local] Set Warnings "-clear-no-such-hyp".

Local Open Scope string_scope.
Local Open Scope Z_scope.

(** ** JavaScript values used by the route *)

(** A value read from [process.env]: a string, or [undefined]. *)
Definition env_value := option string.

(** Template-literal interpolation [`${v}`]: [undefined] prints as the
    nine letters of its name. *)
Definition template (v : env_value) : string :=
  match v with
  | Some s => s
  | None => "undefined"
  end.

(** [!s] on a string: only the empty string is falsy. *)
Definition not_string (s : string) : bool :=
  match s with
  | EmptyString => true
  | String _ _ => false
  end.

(** [!v] on a [string | undefined]. *)
Definition not_value (v : env_value) : bool :=
  match v with
  | None => true
  | Some s => not_string s
  end.

(** Parsed JSON of unknown shape (the [any] of [notionResponse.data]). *)
#[local] Unset Elimination Schemes.
Inductive json :=
| JNull
| JBool (b : bool)
| JNumber (n : Z)
| JString (s : string)
| JArray (items : list json)
| JObject (fields : list (string * json)).
#[local] Set Elimination Schemes.

(** ** The interfaces of the source *)

(** [interface CommitFile]. *)
Record CommitFile := {
  filename : string;
  additions : Z;
  deletions : Z;
  changes : Z;
  patch : option string;
}.

(** [interface CommitDetail]: the body of GitHub's per-commit endpoint,
    [commit.author] and [commit] flattened into field names. *)
Record CommitDetail := {
  sha : string;
  commit_author_name : string;
  commit_author_date : string;
  commit_message : string;
  files : list CommitFile;
}.

(** The object literal built by the callback of [commits.map] in
    [getCommit]: [{ sha, author, date, message, files }]. *)
Record FormattedCommit := {
  f_sha : string;
  f_author : string;
  f_date : string;
  f_message : string;
  f_files : list CommitFile;
}.

(** An element of the commit-list response, [{ sha: string }]. *)
Record CommitStub := { stub_sha : string }.

(** An element of the branches response, [{ name: string }]. *)
Record Branch := { name : string }.

(** What [getCommit] resolves to: [CommitDetail[] | BranchOnlyResult].
    The cast [as CommitDetail[]] in [POST] is erased at run time, so the
    value travels as this union. *)
Inductive fetched :=
| Details (commitDetails : list FormattedCommit)
| BranchOnlyResult (branches : list string).

(** ** Errors, outbound calls and the world *)

(** [error.response] of an axios error. *)
Record http_response := {
  status : Z;
  statusText : string;
}.

Inductive js_error :=
| AxiosError (response : option http_response)
| RangeError (message : string)
| TypeError (message : string)
| OtherError (message : string).

(** A settled promise. *)
Inductive settled (A : Type) :=
| Fulfilled (value : A)
| Rejected (reason : js_error).
Arguments Fulfilled {A} value.
Arguments Rejected {A} reason.

(** One outbound HTTP call: [axios.get(url, { headers: { Authorization },
    params: { since } })] or [axios.post(url, data, { headers:
    { 'Content-Type' } })]. *)
Inductive call :=
| AxiosGet (url : string) (authorization : string) (since : option string)
| AxiosPost (url : string) (data : fetched) (content_type : string).

Definition is_post (c : call) : bool :=
  match c with
  | AxiosPost _ _ _ => true
  | AxiosGet _ _ _ => false
  end.

(** The outside world. Every endpoint answers a call knowing how many
    outbound calls came before it, so the same request may be answered
    differently at different times. [completion_order n] is the order in
    which [n] requests in flight together settle, as indices into the
    list of requests. *)
Record World := {
  now : Z;
  commits_endpoint : nat → call → settled (list CommitStub);
  branches_endpoint : nat → call → settled (list Branch);
  commit_endpoint : nat → call → settled CommitDetail;
  notion_endpoint : nat → call → settled json;
  completion_order : nat → list nat;
}.

(** ** Responses *)

(** The JSON bodies the route hands to [NextResponse.json]. *)
Inductive body :=
| ErrorBody (error : string)
| MessageBody (message : string)
| ProcessedBody (message : string) (notionResponse : json) (commits : fetched)
| FetchedBody (value : fetched).

Record NextResponse := {
  res_body : body;
  res_status : Z;
}.

(** ** The handler monad: state, exceptions and promises that never settle *)

Record state := {
  outbound : list call;
  console_error : list js_error;
}.

Definition initial : state := {| outbound := []; console_error := [] |}.

Inductive outcome (A : Type) :=
| Returns (a : A)
| Throws (e : js_error)
| Hangs.
Arguments Returns {A} a.
Arguments Throws {A} e.
Arguments Hangs {A}.

Definition M (A : Type) : Type := state → outcome A * state.

Definition ret {A} (a : A) : M A := λ st, (Returns a, st).

Definition throw {A} (e : js_error) : M A := λ st, (Throws e, st).

Definition bind {A B} (m : M A) (k : A → M B) : M B :=
  λ st,
    match m st with
    | (Returns a, st') => k a st'
    | (Throws e, st') => (Throws e, st')
    | (Hangs, st') => (Hangs, st')
    end.

#[export] Instance M_ret : MRet M := @ret.
#[export] Instance M_bind : MBind M := λ A B k m, bind m k.

(** [try { m } catch (error) { handler }]. *)
Definition try_catch {A} (m : M A) (handler : js_error → M A) : M A :=
  λ st,
    match m st with
    | (Throws e, st') => handler e st'
    | r => r
    end.

(** [console.error('Error fetching data:', error)]. *)
Definition log_error (e : js_error) : M unit :=
  λ st, (Returns (), {| outbound := outbound st;
                        console_error := console_error st ++ [e] |}).

(** [await p] on a promise that has settled. *)
Definition await {A} (p : settled A) : M A :=
  match p with
  | Fulfilled v => ret v
  | Rejected e => throw e
  end.

(** Issuing a request: the call is recorded and the endpoint's answer,
    which depends on the number of earlier calls, becomes the promise. *)
Definition axios {A} (endpoint : nat → call → settled A) (c : call)
  : M (settled A) :=
  λ st, (Returns (endpoint (length (outbound st)) c),
         {| outbound := outbound st ++ [c];
            console_error := console_error st |}).

(** ** [Date]: time values, [toISOString] *)

(** [new Date(t)]: the time value, or [None] for an invalid date when
    [t] is outside the range a [Date] can hold (TimeClip). *)
Definition Date_new (t : Z) : option Z :=
  if Z.abs t <=? 8640000000000000 then Some t else None.

Definition msPerDay : Z := 86400000.

(** Year, month (1..12) and day of the month of a day number counted
    from 1970-01-01 in the proleptic Gregorian calendar. *)
Definition civil_from_days (days : Z) : Z * Z * Z :=
  let z := days + 719468 in
  let era := z / 146097 in
  let doe := z - era * 146097 in
  let yoe := (doe - doe / 1460 + doe / 36524 - doe / 146096) / 365 in
  let doy := doe - (365 * yoe + yoe / 4 - yoe / 100) in
  let mp := (5 * doy + 2) / 153 in
  let d := doy - (153 * mp + 2) / 5 + 1 in
  let m := if mp <? 10 then mp + 3 else mp - 9 in
  let y := yoe + era * 400 + (if m <=? 2 then 1 else 0) in
  (y, m, d).

Definition digit (n : Z) : ascii :=
  ascii_of_nat (48 + Z.to_nat (n mod 10)).

Definition pad2 (n : Z) : string :=
  String (digit (n / 10)) (String (digit n) "").

Definition pad3 (n : Z) : string :=
  String (digit (n / 100)) (pad2 n).

Definition pad4 (n : Z) : string :=
  String (digit (n / 1000)) (pad3 n).

Definition pad6 (n : Z) : string :=
  String (digit (n / 100000)) (String (digit (n / 10000)) (pad4 n)).

(** Four digits for the years 0 to 9999, a sign and six digits for the
    others. *)
Definition iso_year (y : Z) : string :=
  if (0 <=? y) && (y <=? 9999) then pad4 y
  else if y <? 0 then "-" +:+ pad6 (- y)
  else "+" +:+ pad6 y.

(** The text [YYYY-MM-DDTHH:mm:ss.sssZ] of a time value. *)
Definition iso_string (t : Z) : string :=
  let '(y, m, d) := civil_from_days (t / msPerDay) in
  let ms := t mod msPerDay in
  iso_year y +:+ "-" +:+ pad2 m +:+ "-" +:+ pad2 d +:+ "T" +:+
  pad2 (ms / 3600000) +:+ ":" +:+ pad2 (ms / 60000 mod 60) +:+ ":" +:+
  pad2 (ms / 1000 mod 60) +:+ "." +:+ pad3 (ms mod 1000) +:+ "Z".

(** [date.toISOString()]: a [RangeError] on an invalid date. *)
Definition toISOString (date : option Z) : M string :=
  match date with
  | Some t => ret (iso_string t)
  | None => throw (RangeError "Invalid time value")
  end.

(** *** Reading the text back

    The Date Time String Format read as an instant: what a text of the
    form [YYYY-MM-DDTHH:mm:ss.sssZ], or with an expanded year
    [+YYYYYY] or [-YYYYYY], denotes in milliseconds since the epoch.
    The route never reads a date; these definitions state what the text
    it sends means. *)

(** The day number of a calendar date, counted from 1970-01-01. *)
Definition days_from_civil (y m d : Z) : Z :=
  let y' := if m <=? 2 then y - 1 else y in
  let era := y' / 400 in
  let yoe := y' - era * 400 in
  let mp := if 2 <? m then m - 3 else m + 9 in
  let doy := (153 * mp + 2) / 5 + d - 1 in
  let doe := yoe * 365 + yoe / 4 - yoe / 100 + doy in
  era * 146097 + doe - 719468.

Definition leap_year (y : Z) : bool :=
  (y mod 4 =? 0) && (negb (y mod 100 =? 0) || (y mod 400 =? 0)).

Definition days_in_month (y m : Z) : Z :=
  if m =? 2 then (if leap_year y then 29 else 28)
  else if (m =? 4) || (m =? 6) || (m =? 9) || (m =? 11) then 30
  else 31.

Definition digit_value (c : ascii) : option Z :=
  let n := Z.of_nat (nat_of_ascii c) in
  if (48 <=? n) && (n <=? 57) then Some (n - 48) else None.

(** Reads exactly [count] decimal digits. *)
Fixpoint digits (count : nat) (acc : Z) (s : string) : option (Z * string) :=
  match count with
  | O => Some (acc, s)
  | S count' =>
      match s with
      | String c s' => d ← digit_value c; digits count' (10 * acc + d) s'
      | EmptyString => None
      end
  end.

Definition expect (c : ascii) (s : string) : option string :=
  match s with
  | String c' s' => if Ascii.eqb c c' then Some s' else None
  | EmptyString => None
  end.

Definition within (lo hi n : Z) : option unit :=
  if (lo <=? n) && (n <=? hi) then Some () else None.

Definition read_year (s : string) : option (Z * string) :=
  match s with
  | String "+" s' => digits 6 0 s'
  | String "-" s' => '(y, s'') ← digits 6 0 s'; Some (- y, s'')
  | _ => digits 4 0 s
  end.

Definition iso_instant (text : string) : option Z :=
  '(y, s) ← read_year text;
  s ← expect "-" s; '(m, s) ← digits 2 0 s; _ ← within 1 12 m;
  s ← expect "-" s; '(d, s) ← digits 2 0 s;
  _ ← within 1 (days_in_month y m) d;
  s ← expect "T" s; '(h, s) ← digits 2 0 s; _ ← within 0 23 h;
  s ← expect ":" s; '(mi, s) ← digits 2 0 s; _ ← within 0 59 mi;
  s ← expect ":" s; '(sec, s) ← digits 2 0 s; _ ← within 0 59 sec;
  s ← expect "." s; '(ms, s) ← digits 3 0 s;
  s ← expect "Z" s;
  match s with
  | EmptyString =>
      Some (days_from_civil y m d * msPerDay
            + h * 3600000 + mi * 60000 + sec * 1000 + ms)
  | _ => None
  end.

(** ** [Promise.all] *)

Section PromiseAll.
Context {A : Type}.

(** The resolve-element steps of [Promise.all], run in the order in
    which the promises settle. [values] is the result array, one slot
    per promise, and [remaining] counts the slots still to be filled.
    A fulfilment writes its value at the promise's own index; the
    first rejection rejects the whole; when the order is exhausted
    with slots unfilled, the combined promise never settles. *)
Fixpoint resolve_elements (promises : list (settled A)) (order : list nat)
    (values : list (option A)) (remaining : nat) : outcome (list A) :=
  match order with
  | [] => Hangs
  | index :: order' =>
      match promises !! index with
      | None => resolve_elements promises order' values remaining
      | Some (Rejected reason) => Throws reason
      | Some (Fulfilled x) =>
          match values !! index with
          | Some (Some _) =>
              (* alreadyCalled *)
              resolve_elements promises order' values remaining
          | _ =>
              let values' := <[index := Some x]> values in
              match remaining with
              | O => Hangs
              | S O => Returns (omap id values')
              | S remaining' =>
                  resolve_elements promises order' values' remaining'
              end
          end
      end
  end.

(** [await Promise.all(promises)], the promises settling in [order].
    An empty array resolves at once. *)
Definition Promise_all (promises : list (settled A)) (order : list nat)
  : M (list A) :=
  λ st,
    (match promises with
     | [] => Returns []
     | _ => resolve_elements promises order
              (replicate (length promises) None) (length promises)
     end, st).

(** What slot [j] of the result array holds while the promises listed
    in [order] are still to settle and promise [j] is fulfilled with
    [v]. *)
Definition slot (order : list nat) (j : nat) (v : A) : option A :=
  if decide (j ∈ order) then None else Some v.
End PromiseAll.

(** [array.map(async x => ...)]: every callback runs, in array order, up
    to its first [await], and leaves a promise. *)
Fixpoint map_async {A B} (f : A → M (settled B)) (l : list A)
  : M (list (settled B)) :=
  match l with
  | [] => ret []
  | x :: l' => p ← f x; ps ← map_async f l'; ret (p :: ps)
  end.

(** The continuation of a promise: [g] runs on the value once it is
    there. *)
Definition then_ {A B} (g : A → B) (p : settled A) : settled B :=
  match p with
  | Fulfilled v => Fulfilled (g v)
  | Rejected e => Rejected e
  end.

(** ** [NextResponse.json] *)

Definition double_quote : ascii := "034"%char.

(** The text of the [RangeError] of the [Response] constructor, the
    word status between double quotes. *)
Definition status_range_message : string :=
  "init[" +:+ String double_quote
    ("status" +:+ String double_quote
       "] must be in the range of 200 to 599, inclusive.").

(** The statuses of a response that has no body. Those below 200 (101,
    103) never get as far as this test. *)
Definition null_body_status (st : Z) : bool :=
  (st =? 204) || (st =? 205) || (st =? 304).

(** [NextResponse.json(body, { status })]. The [Response] constructor
    behind it refuses a status outside 200..599 with a [RangeError],
    and, the JSON text being a body, a null-body status with a
    [TypeError]. *)
Definition NextResponse_json (b : body) (st : Z) : M NextResponse :=
  if (200 <=? st) && (st <=? 599) then
    if null_body_status st then
      throw (TypeError ("Response constructor: Invalid response status code "
                        +:+ pad3 st))
    else ret {| res_body := b; res_status := st |}
  else throw (RangeError status_range_message).

(** ** The route *)

(** [process.env] as far as the route reads it. *)
Record Env := {
  GITHUB_REPO_OWNER : env_value;
  GITHUB_REPO_NAME : env_value;
  GITHUB_TOKEN : env_value;
  BASE_URL : env_value;
}.

(** The request as far as the route reads it: what
    [req.headers.get('X-GitHub-Event')] evaluates to, [None] for the
    [null] of an absent header. *)
Record NextRequest := {
  x_github_event : option string;
}.

(** [v === s] for a [string | null] and a string literal. *)
Definition strict_eq (v : option string) (s : string) : bool :=
  match v with
  | Some t => String.eqb t s
  | None => false
  end.

Section Route.
Variable env : Env.
Variable w : World.

Definition owner : env_value := GITHUB_REPO_OWNER env.
Definition repo : env_value := GITHUB_REPO_NAME env.
Definition githubToken : env_value := GITHUB_TOKEN env.
Definition notionUpdateApiUrl : string :=
  template (BASE_URL env) +:+ "/api/updatenotioncalendar".

Definition getISOTimeFiveMinutesAgo : M string :=
  let fiveMinutesAgo := Date_new (now w - 5 * 60 * 1000) in
  toISOString fiveMinutesAgo.

Definition authorization_header : string :=
  "Bearer " +:+ template githubToken.

Definition commits_url : string :=
  "https://api.github.com/repos/" +:+ template owner +:+ "/" +:+
  template repo +:+ "/commits".

Definition branches_url : string :=
  "https://api.github.com/repos/" +:+ template owner +:+ "/" +:+
  template repo +:+ "/branches".

Definition commit_detail_url (commit : CommitStub) : string :=
  "https://api.github.com/repos/" +:+ template owner +:+ "/" +:+
  template repo +:+ "/commits/" +:+ stub_sha commit.

(** The code of the [commits.map] callback after its [await]. *)
Definition format_commit (data : CommitDetail) : FormattedCommit :=
  let formattedFiles :=
    map (λ file, {| filename := filename file;
                    additions := additions file;
                    deletions := deletions file;
                    changes := changes file;
                    patch := patch file |}) (files data) in
  {| f_sha := sha data;
     f_author := commit_author_name data;
     f_date := commit_author_date data;
     f_message := commit_message data;
     f_files := formattedFiles |}.

(** The arguments of the four [axios] calls of the route. *)
Definition commit_list_request (since : string) : call :=
  AxiosGet commits_url authorization_header (Some since).

Definition branches_request : call :=
  AxiosGet branches_url authorization_header None.

Definition commit_detail_request (commit : CommitStub) : call :=
  AxiosGet (commit_detail_url commit) authorization_header None.

Definition notion_request (commitDetails : fetched) : call :=
  AxiosPost notionUpdateApiUrl commitDetails "application/json".

(** The [commits.map] callback: the request goes out at once, the
    formatting waits for the answer. *)
Definition fetch_detail (commit : CommitStub) : M (settled FormattedCommit) :=
  commitDetailResponse ←
    axios (commit_endpoint w) (commit_detail_request commit);
  ret (then_ format_commit commitDetailResponse).

Definition getCommit (includeDetails : bool) : M fetched :=
  try_catch
    (since ← getISOTimeFiveMinutesAgo;
     commitListResponse ←
       axios (commits_endpoint w) (commit_list_request since);
     commits ← await commitListResponse;
     if negb includeDetails then
       branchesResponse ← axios (branches_endpoint w) branches_request;
       branchesData ← await branchesResponse;
       let branches := map name branchesData in
       ret (BranchOnlyResult branches)
     else
       promises ← map_async fetch_detail commits;
       commitDetails ←
         Promise_all promises (completion_order w (length promises));
       ret (Details commitDetails))
    (λ error, _ ← log_error error; throw error).

Definition updateCommit (commitDetails : fetched) : M NextResponse :=
  try_catch
    (pending ← axios (notion_endpoint w) (notion_request commitDetails);
     notionResponse ← await pending;
     NextResponse_json
       (ProcessedBody "Commits processed and sent to Notion API"
                      notionResponse commitDetails) 200)
    (λ error,
       match error with
       | AxiosError (Some response) =>
           NextResponse_json (ErrorBody (statusText response))
                             (status response)
       | _ => NextResponse_json (ErrorBody "Internal Server Error") 500
       end).

Definition POST (req : NextRequest) : M NextResponse :=
  if not_value owner || not_value repo || not_value githubToken
     || not_string notionUpdateApiUrl
  then
    NextResponse_json (ErrorBody "Environment variables not set correctly.") 500
  else
    let eventType := x_github_event req in
    if strict_eq eventType "push" then
      commitDetails ← getCommit true;
      updateCommit commitDetails
    else if strict_eq eventType "getBranch" then
      branchDetails ← getCommit false;
      NextResponse_json (FetchedBody branchDetails) 200
    else
      NextResponse_json (MessageBody "Event not supported") 400.
End Route.

(** ** Vocabulary of the properties *)

(** A configuration value is present: set, and not the empty string. *)
Definition present (v : env_value) : Prop :=
  ∃ s, v = Some s ∧ s ≠ "".

(** The three values the gate of [POST] can find missing. *)
Definition configured (env : Env) : Prop :=
  present (GITHUB_REPO_OWNER env) ∧ present (GITHUB_REPO_NAME env) ∧
  present (GITHUB_TOKEN env).

(** The cutoff is a time a [Date] can hold. *)
Definition cutoff_in_range (w : World) : Prop :=
  Z.abs (now w - 300000) ≤ 8640000000000000.

(** Each of [n] requests in flight together settles, exactly once. *)
Definition all_settle (w : World) (n : nat) : Prop :=
  completion_order w n ≡ₚ seq 0 n.

(** The text of the cutoff, five minutes before the world's clock. *)
Definition cutoff (w : World) : string := iso_string (now w - 300000).

(** The answers to the per-commit requests of a push that starts from
    the [initial] state: the request for commit [i] of the list is
    outbound call number [i + 1], after the commit-list call. *)
Definition detail_answers (env : Env) (w : World) (commits : list CommitStub)
  : list (settled CommitDetail) :=
  imap (λ i commit, commit_endpoint w (S i) (commit_detail_request env commit))
       commits.

(** A computation only adds to the record of outbound calls. *)
Definition appends {A} (m : M A) : Prop :=
  ∀ st, outbound st `prefix_of` outbound (m st).2.

(** The state of a handler that has issued [calls] and logged [errors]. *)
Definition after (calls : list call) (errors : list js_error) : state :=
  {| outbound := calls; console_error := errors |}.

(** The response [NextResponse.json(b, { status: s })] makes. *)
Definition response (b : body) (s : Z) : NextResponse :=
  {| res_body := b; res_status := s |}.

(** The reply of the configuration gate. *)
Definition misconfiguration : NextResponse :=
  response (ErrorBody "Environment variables not set correctly.") 500.

(** A status [NextResponse.json] can put on a reply that has a body:
    within 200..599 and not one of the null-body statuses 204, 205 and
    304. *)
Definition relayable (s : Z) : Prop :=
  200 ≤ s ≤ 599 ∧ s ≠ 204 ∧ s ≠ 205 ∧ s ≠ 304.

(** The fetch of a push fails with [e]: the commit-list call is
    rejected, or it is answered and one of the per-commit calls, all of
    which settle, is rejected. *)
Inductive fetch_failure (env : Env) (w : World) : js_error → Prop :=
| commit_list_rejected (e : js_error) :
    commits_endpoint w 0 (commit_list_request env (cutoff w)) = Rejected e →
    fetch_failure env w e
| commit_detail_rejected (commits : list CommitStub) (i : nat) (e : js_error) :
    commits_endpoint w 0 (commit_list_request env (cutoff w)) = Fulfilled commits →
    detail_answers env w commits !! i = Some (Rejected e) →
    all_settle w (length commits) →
    fetch_failure env w e.

(** ** A sample deployment

    A configured repository with three fresh commits, and worlds in
    which the upstream and downstream services answer or fail. Requests
    in flight together settle in the reverse of the order they were
    issued in. *)

Module Sample.
Definition env : Env :=
  {| GITHUB_REPO_OWNER := Some "octocat";
     GITHUB_REPO_NAME := Some "hello-world";
     GITHUB_TOKEN := Some "ghp_token";
     BASE_URL := Some "https://calendar.example" |}.

(** The same deployment with [BASE_URL] left unset. *)
Definition env_without_base_url : Env :=
  {| GITHUB_REPO_OWNER := Some "octocat";
     GITHUB_REPO_NAME := Some "hello-world";
     GITHUB_TOKEN := Some "ghp_token";
     BASE_URL := None |}.

(** The same deployment with [BASE_URL] set to the empty string. *)
Definition env_with_empty_base_url : Env :=
  {| GITHUB_REPO_OWNER := Some "octocat";
     GITHUB_REPO_NAME := Some "hello-world";
     GITHUB_TOKEN := Some "ghp_token";
     BASE_URL := Some "" |}.

(** The same deployment with the token left unset. *)
Definition env_without_token : Env :=
  {| GITHUB_REPO_OWNER := Some "octocat";
     GITHUB_REPO_NAME := Some "hello-world";
     GITHUB_TOKEN := None;
     BASE_URL := Some "https://calendar.example" |}.

Definition push : NextRequest := {| x_github_event := Some "push" |}.
Definition getBranch : NextRequest := {| x_github_event := Some "getBranch" |}.
Definition ping : NextRequest := {| x_github_event := Some "ping" |}.
Definition no_header : NextRequest := {| x_github_event := None |}.

Definition commits : list CommitStub :=
  [ {| stub_sha := "a1" |}; {| stub_sha := "b2" |}; {| stub_sha := "c3" |} ].

Definition heads : list Branch := [ {| name := "main" |}; {| name := "dev" |} ].

Definition detail (id : string) : CommitDetail :=
  {| sha := id;
     commit_author_name := "Ada";
     commit_author_date := "2023-11-14T22:10:00Z";
     commit_message := "Update " +:+ id;
     files := [ {| filename := "README.md"; additions := 2; deletions := 1;
                   changes := 3; patch := Some "@@ -1 +1,2 @@" |} ] |}.

Definition details : list CommitDetail := [detail "a1"; detail "b2"; detail "c3"].

(** The per-commit endpoint answers call number [n]: calls 1, 2 and 3
    of a push are the requests for the three commits. *)
Definition detail_of_call (n : nat) : CommitDetail :=
  match n with
  | 1%nat => detail "a1"
  | 2%nat => detail "b2"
  | _ => detail "c3"
  end.

Definition accepted : json := JObject [("ok", JBool true)].

Definition too_many_requests : http_response :=
  {| status := 429; statusText := "Too Many Requests" |}.

Definition not_found : http_response :=
  {| status := 404; statusText := "Not Found" |}.

Definition world_with (commit_list : settled (list CommitStub))
    (commit : nat → settled CommitDetail) (notion : settled json) : World :=
  {| now := 1700000000000;
     commits_endpoint := λ _ _, commit_list;
     branches_endpoint := λ _ _, Fulfilled heads;
     commit_endpoint := λ n _, commit n;
     notion_endpoint := λ _ _, notion;
     completion_order := λ n, reverse (seq 0 n) |}.

(** Every service answers. *)
Definition world : World :=
  world_with (Fulfilled commits) (λ n, Fulfilled (detail_of_call n))
             (Fulfilled accepted).

(** The downstream service answers 429. *)
Definition world_rate_limited : World :=
  world_with (Fulfilled commits) (λ n, Fulfilled (detail_of_call n))
             (Rejected (AxiosError (Some too_many_requests))).

(** The downstream service cannot be reached. *)
Definition world_downstream_unreachable : World :=
  world_with (Fulfilled commits) (λ n, Fulfilled (detail_of_call n))
             (Rejected (AxiosError None)).

(** The commit-list call fails. *)
Definition world_list_fails : World :=
  world_with (Rejected (AxiosError (Some not_found)))
             (λ n, Fulfilled (detail_of_call n)) (Fulfilled accepted).

(** The request for the second commit fails. *)
Definition world_detail_fails : World :=
  world_with (Fulfilled commits)
             (λ n, match n with
                   | 2%nat => Rejected (AxiosError (Some not_found))
                   | _ => Fulfilled (detail_of_call n)
                   end)
             (Fulfilled accepted).
End Sample.

(** ** Vocabulary of the further properties *)

(** The number of slots of a result array still to be filled. *)
Fixpoint unfilled {A} (values : list (option A)) : nat :=
  match values with
  | [] => 0
  | None :: values' => S (unfilled values')
  | Some _ :: values' => unfilled values'
  end.

(** What the resolve-element steps of [Promise.all] keep true of the
    result array: it has a slot per promise, [remaining] counts the
    unfilled ones, and a filled slot holds the value its promise was
    fulfilled with. *)
Definition consistent {A} (promises : list (settled A))
    (values : list (option A)) (remaining : nat) : Prop :=
  length values = length promises ∧
  unfilled values = remaining ∧
  ∀ j v, values !! j = Some (Some v) → promises !! j = Some (Fulfilled v).

(** The three requests the fetcher can send. *)
Inductive fetch_call (env : Env) : call → Prop :=
| is_commit_list (since : string) :
    fetch_call env (commit_list_request env since)
| is_branches : fetch_call env (branches_request env)
| is_commit_detail (commit : CommitStub) :
    fetch_call env (commit_detail_request env commit).

(** The requests the route can send: those of the fetcher and the
    forwarding one. *)
Inductive route_call (env : Env) : call → Prop :=
| is_fetch (c : call) : fetch_call env c → route_call env c
| is_forward (data : fetched) : route_call env (notion_request env data).

(** A computation changes the state only by sending calls that satisfy
    [P]; it logs nothing. *)
Definition sends_only (P : call → Prop) {A} (m : M A) : Prop :=
  ∀ st, ∃ calls,
    (m st).2 = after (outbound st ++ calls) (console_error st) ∧
    Forall P calls.

(** What [getCommit] writes to the console for an outcome. *)
Definition logged {A} (o : outcome A) : list js_error :=
  match o with
  | Throws e => [e]
  | _ => []
  end.

(** Worlds in which something goes wrong that the sample worlds do not
    show. *)
Module Faults.
Definition answers (n : nat) : settled CommitDetail :=
  Fulfilled (Sample.detail_of_call n).

(** The clock is beyond the last time a [Date] can hold. *)
Definition world_clock_out_of_range : World :=
  {| now := 8640000000000001 + 300000;
     commits_endpoint := λ _ _, Fulfilled Sample.commits;
     branches_endpoint := λ _ _, Fulfilled Sample.heads;
     commit_endpoint := λ n _, answers n;
     notion_endpoint := λ _ _, Fulfilled Sample.accepted;
     completion_order := λ n, seq 0 n |}.

(** The branches call fails. *)
Definition world_branches_fail : World :=
  {| now := 1700000000000;
     commits_endpoint := λ _ _, Fulfilled Sample.commits;
     branches_endpoint := λ _ _, Rejected (AxiosError (Some Sample.not_found));
     commit_endpoint := λ n _, answers n;
     notion_endpoint := λ _ _, Fulfilled Sample.accepted;
     completion_order := λ n, seq 0 n |}.

(** No commit in the last five minutes. *)
Definition world_no_commits : World :=
  Sample.world_with (Fulfilled []) answers (Fulfilled Sample.accepted).

(** The request for the third commit never settles. *)
Definition world_third_never_settles : World :=
  {| now := 1700000000000;
     commits_endpoint := λ _ _, Fulfilled Sample.commits;
     branches_endpoint := λ _ _, Fulfilled Sample.heads;
     commit_endpoint := λ n _, answers n;
     notion_endpoint := λ _ _, Fulfilled Sample.accepted;
     completion_order := λ _, [1; 0]%nat |}.

Definition unauthorized : http_response :=
  {| status := 401; statusText := "Unauthorized" |}.

(** The requests for the first and the third commit fail, differently;
    the third settles first, then the second, then the first. *)
Definition world_two_details_fail : World :=
  Sample.world_with (Fulfilled Sample.commits)
    (λ n, match n with
          | 1%nat => Rejected (AxiosError (Some Sample.not_found))
          | 3%nat => Rejected (AxiosError (Some unauthorized))
          | _ => answers n
          end)
    (Fulfilled Sample.accepted).

Definition not_modified : http_response :=
  {| status := 304; statusText := "Not Modified" |}.

(** The downstream service answers 304. *)
Definition world_status_304 : World :=
  Sample.world_with (Fulfilled Sample.commits) answers
    (Rejected (AxiosError (Some not_modified))).

Definition out_of_range_status : http_response :=
  {| status := 999; statusText := "Request denied" |}.

(** The downstream service answers with a status no [Response] can
    carry. *)
Definition world_status_999 : World :=
  Sample.world_with (Fulfilled Sample.commits) answers
    (Rejected (AxiosError (Some out_of_range_status))).
End Faults.

(** * Properties *)

(** ** The monad *)

Lemma bind_returns {A B} (m : M A) (k : A → M B) st a st' :
  m st = (Returns a, st') → (m ≫= k) st = k a st'.
Proof. intros Hm. unfold mbind, M_bind, bind. by rewrite Hm. Qed.

Lemma bind_throws {A B} (m : M A) (k : A → M B) st e st' :
  m st = (Throws e, st') → (m ≫= k) st = (Throws e, st').
Proof. intros Hm. unfold mbind, M_bind, bind. by rewrite Hm. Qed.

Lemma bind_hangs {A B} (m : M A) (k : A → M B) st st' :
  m st = (Hangs, st') → (m ≫= k) st = (Hangs, st').
Proof. intros Hm. unfold mbind, M_bind, bind. by rewrite Hm. Qed.

Lemma try_catch_returns {A} (m : M A) handler st a st' :
  m st = (Returns a, st') → try_catch m handler st = (Returns a, st').
Proof. intros Hm. unfold try_catch. by rewrite Hm. Qed.

Lemma try_catch_throws {A} (m : M A) handler st e st' :
  m st = (Throws e, st') → try_catch m handler st = handler e st'.
Proof. intros Hm. unfold try_catch. by rewrite Hm. Qed.

Lemma try_catch_hangs {A} (m : M A) handler st st' :
  m st = (Hangs, st') → try_catch m handler st = (Hangs, st').
Proof. intros Hm. unfold try_catch. by rewrite Hm. Qed.

(** Every step of the handler leaves the calls already made in place. *)

Lemma appends_ret {A} (a : A) : appends (mret a).
Proof. by intros st. Qed.

Lemma appends_throw {A} e : appends (@throw A e).
Proof. by intros st. Qed.

Lemma appends_bind {A B} (m : M A) (k : A → M B) :
  appends m → (∀ a, appends (k a)) → appends (m ≫= k).
Proof.
  intros Hm Hk st. unfold mbind, M_bind, bind. specialize (Hm st).
  destruct (m st) as [[a|e|] st']; cbn in *; [|done..].
  by etrans; [|apply Hk].
Qed.

Lemma appends_try_catch {A} (m : M A) handler :
  appends m → (∀ e, appends (handler e)) → appends (try_catch m handler).
Proof.
  intros Hm Hh st. unfold try_catch. specialize (Hm st).
  destruct (m st) as [[a|e|] st']; cbn in *; [done| |done].
  by etrans; [|apply Hh].
Qed.

Lemma appends_await {A} (p : settled A) : appends (await p).
Proof. destruct p; by intros st. Qed.

Lemma appends_axios {A} (endpoint : nat → call → settled A) c :
  appends (axios endpoint c).
Proof. intros st. cbn. by apply prefix_app_r. Qed.

Lemma appends_log_error e : appends (log_error e).
Proof. by intros st. Qed.

Lemma appends_Promise_all {A} (promises : list (settled A)) order :
  appends (Promise_all promises order).
Proof. by intros st. Qed.

Lemma appends_map_async {A B} (f : A → M (settled B)) l :
  (∀ x, appends (f x)) → appends (map_async f l).
Proof.
  intros Hf. induction l as [|x l IH]; cbn [map_async].
  - apply appends_ret.
  - apply appends_bind; [done|]. intros p.
    apply appends_bind; [done|]. intros ps. apply appends_ret.
Qed.

Lemma appends_NextResponse_json b s : appends (NextResponse_json b s).
Proof.
  unfold NextResponse_json.
  destruct (_ && _); [destruct (null_body_status s)|]; by intros st.
Qed.

Lemma appends_toISOString date : appends (toISOString date).
Proof. destruct date; by intros st. Qed.

Create HintDb appends.

#[local] Hint Resolve appends_ret appends_throw appends_await appends_axios
  appends_log_error appends_Promise_all appends_NextResponse_json
  appends_toISOString : appends.

Ltac appends :=
  repeat first
    [ progress eauto with appends
    | apply appends_bind; [|intros ?]
    | apply appends_try_catch; [|intros ?]
    | apply appends_map_async; intros ?
    | match goal with |- appends (if ?b then _ else _) => destruct b end
    | match goal with |- appends (match ?e with _ => _ end) => destruct e end ].

(** ** The text of a date *)

Lemma digit_value_digit n : digit_value (digit n) = Some (n mod 10).
Proof.
  unfold digit. pose proof (Z.mod_pos_bound n 10 ltac:(lia)) as Hn.
  assert (∃ k, (k < 10)%nat ∧ n mod 10 = Z.of_nat k) as (k & Hk & ->).
  { exists (Z.to_nat (n mod 10)). lia. }
  rewrite Nat2Z.id.
  do 10 (destruct k as [|k]; [reflexivity|]). lia.
Qed.

Lemma append_String c s1 s2 : String c s1 +:+ s2 = String c (s1 +:+ s2).
Proof. reflexivity. Qed.

Lemma append_empty s : "" +:+ s = s.
Proof. reflexivity. Qed.

Lemma digits_cons count acc n s :
  digits (S count) acc (String (digit n) s) = digits count (10 * acc + n mod 10) s.
Proof. cbn [digits]. by rewrite digit_value_digit. Qed.

Lemma digits_pad2 acc n s :
  digits 2 acc (pad2 n +:+ s) = Some (100 * acc + 10 * (n / 10 mod 10) + n mod 10, s).
Proof.
  unfold pad2. rewrite !append_String, ?append_empty. rewrite !digits_cons. cbn [digits].
  do 2 f_equal. lia.
Qed.

Lemma digits_pad3 acc n s :
  digits 3 acc (pad3 n +:+ s)
  = Some (1000 * acc + 100 * (n / 100 mod 10) + 10 * (n / 10 mod 10) + n mod 10, s).
Proof.
  unfold pad3. rewrite !append_String, ?append_empty. rewrite digits_cons, digits_pad2.
  do 2 f_equal. lia.
Qed.

Lemma digits_pad4 acc n s :
  digits 4 acc (pad4 n +:+ s)
  = Some (10000 * acc + 1000 * (n / 1000 mod 10) + 100 * (n / 100 mod 10)
          + 10 * (n / 10 mod 10) + n mod 10, s).
Proof.
  unfold pad4. rewrite !append_String, ?append_empty. rewrite digits_cons, digits_pad3.
  do 2 f_equal. lia.
Qed.

Lemma digits_pad6 n s :
  0 ≤ n < 1000000 → digits 6 0 (pad6 n +:+ s) = Some (n, s).
Proof.
  intros Hn. unfold pad6. rewrite !append_String, ?append_empty. rewrite !digits_cons, digits_pad4.
  do 2 f_equal. Z.div_mod_to_equations. lia.
Qed.

Lemma digits_2 n s : 0 ≤ n < 100 → digits 2 0 (pad2 n +:+ s) = Some (n, s).
Proof.
  intros Hn. rewrite digits_pad2. do 2 f_equal. Z.div_mod_to_equations. lia.
Qed.

Lemma digits_3 n s : 0 ≤ n < 1000 → digits 3 0 (pad3 n +:+ s) = Some (n, s).
Proof.
  intros Hn. rewrite digits_pad3. do 2 f_equal. Z.div_mod_to_equations. lia.
Qed.

Lemma digits_4 n s : 0 ≤ n < 10000 → digits 4 0 (pad4 n +:+ s) = Some (n, s).
Proof.
  intros Hn. rewrite digits_pad4. do 2 f_equal. Z.div_mod_to_equations. lia.
Qed.

Lemma leap_year_of_era yoe era :
  (yoe + 1) mod 4 = 0 → (yoe + 1) mod 100 ≠ 0 ∨ yoe + 1 = 400 →
  leap_year (yoe + era * 400 + 1) = true.
Proof.
  intros H4 H100. unfold leap_year.
  apply andb_true_iff. split.
  - apply Z.eqb_eq. Z.div_mod_to_equations. lia.
  - apply orb_true_iff. destruct H100 as [H100|H400].
    + left. apply negb_true_iff, Z.eqb_neq. Z.div_mod_to_equations. lia.
    + right. apply Z.eqb_eq. Z.div_mod_to_equations. lia.
Qed.

(** [civil_from_days] yields a date of the calendar, and it is the date
    of the day number given. *)
Lemma civil_from_days_range days :
  let '(y, m, d) := civil_from_days days in
  1 ≤ m ≤ 12 ∧ 1 ≤ d ≤ days_in_month y m ∧ days_from_civil y m d = days.
Proof.
  unfold civil_from_days.
  set (z := days + 719468). set (era := z / 146097).
  set (doe := z - era * 146097).
  set (yoe := (doe - doe / 1460 + doe / 36524 - doe / 146096) / 365).
  set (doy := doe - (365 * yoe + yoe / 4 - yoe / 100)).
  set (mp := (5 * doy + 2) / 153).
  assert (0 ≤ doe < 146097) as Hdoe.
  { unfold doe, era. Z.div_mod_to_equations. lia. }
  assert (0 ≤ yoe ≤ 399 ∧ 0 ≤ doy ≤ 365) as [Hyoe Hdoy].
  { unfold doy, yoe. clearbody doe. Z.div_mod_to_equations. lia. }
  assert (doy ≤ 364 ∨
          doy = 365 ∧ (yoe + 1) mod 4 = 0 ∧
          ((yoe + 1) mod 100 ≠ 0 ∨ yoe + 1 = 400)) as Hleap.
  { unfold doy, yoe. clearbody doe. Z.div_mod_to_equations. lia. }
  assert (0 ≤ mp ≤ 11) as Hmp.
  { unfold mp. clearbody doy. Z.div_mod_to_equations. lia. }
  assert (153 * mp ≤ 5 * doy + 2 < 153 * (mp + 1)) as Hmonth.
  { unfold mp. clearbody doy. Z.div_mod_to_equations. lia. }
  assert (doy + (365 * yoe + yoe / 4 - yoe / 100) = doe) as Hdoy_eq
    by (unfold doy; lia).
  assert (doe + era * 146097 = days + 719468) as Hdoe_eq
    by (unfold doe, z; lia).
  clearbody mp doy yoe doe era. clear z.
  split; [|split].
  - destruct (Z.ltb_spec mp 10); lia.
  - assert (5 * ((153 * mp + 2) / 5) ≤ 153 * mp + 2 < 5 * ((153 * mp + 2) / 5) + 5)
      as Hstart by (Z.div_mod_to_equations; lia).
    unfold days_in_month. destruct (Z.ltb_spec mp 10).
    + destruct (Z.eqb_spec (mp + 3) 2); [lia|].
      destruct (Z.eqb_spec (mp + 3) 4); [cbn [orb]; lia|].
      destruct (Z.eqb_spec (mp + 3) 6); [cbn [orb]; lia|].
      destruct (Z.eqb_spec (mp + 3) 9); [cbn [orb]; lia|].
      destruct (Z.eqb_spec (mp + 3) 11); cbn [orb]; lia.
    + destruct (Z.leb_spec (mp - 9) 2); [|lia].
      destruct (Z.eqb_spec (mp - 9) 2) as [Hfeb|Hjan].
      * assert (mp = 11) as -> by lia.
        destruct Hleap as [Hshort|(Hlast & H4 & H100)].
        -- destruct (leap_year _); lia.
        -- rewrite leap_year_of_era by done. lia.
      * destruct (Z.eqb_spec (mp - 9) 4); [lia|].
        destruct (Z.eqb_spec (mp - 9) 6); [lia|].
        destruct (Z.eqb_spec (mp - 9) 9); [lia|].
        destruct (Z.eqb_spec (mp - 9) 11); [lia|]. cbn [orb]. lia.
  - unfold days_from_civil.
    destruct (Z.ltb_spec mp 10).
    + destruct (Z.leb_spec (mp + 3) 2); [lia|].
      destruct (Z.ltb_spec 2 (mp + 3)); [|lia].
      replace (mp + 3 - 3) with mp by lia.
      replace ((yoe + era * 400 + 0) / 400) with era
        by (Z.div_mod_to_equations; lia).
      replace (yoe + era * 400 + 0 - era * 400) with yoe by lia. lia.
    + destruct (Z.leb_spec (mp - 9) 2); [|lia].
      destruct (Z.ltb_spec 2 (mp - 9)); [lia|].
      replace (mp - 9 + 9) with mp by lia.
      replace ((yoe + era * 400 + 1 - 1) / 400) with era
        by (Z.div_mod_to_equations; lia).
      replace (yoe + era * 400 + 1 - 1 - era * 400) with yoe by lia. lia.
Qed.

Lemma days_in_month_bounds y m : 28 ≤ days_in_month y m ≤ 31.
Proof.
  unfold days_in_month.
  destruct (m =? 2), (leap_year y), ((m =? 4) || (m =? 6) || (m =? 9) || (m =? 11));
    lia.
Qed.

Lemma time_within_day ms :
  0 ≤ ms < msPerDay →
  0 ≤ ms / 3600000 ≤ 23 ∧ 0 ≤ ms / 60000 mod 60 ≤ 59 ∧
  0 ≤ ms / 1000 mod 60 ≤ 59 ∧ 0 ≤ ms mod 1000 < 1000 ∧
  ms / 3600000 * 3600000 + ms / 60000 mod 60 * 60000
    + ms / 1000 mod 60 * 1000 + ms mod 1000 = ms.
Proof. unfold msPerDay. intros Hms. Z.div_mod_to_equations. lia. Qed.

Lemma within_Some lo hi n : lo ≤ n ≤ hi → within lo hi n = Some ().
Proof.
  intros [Hlo Hhi]. unfold within.
  by rewrite (proj2 (Z.leb_le _ _) Hlo), (proj2 (Z.leb_le _ _) Hhi).
Qed.

Lemma civil_from_days_year days :
  -100000000 ≤ days ≤ 100000000 →
  -1000000 < (civil_from_days days).1.1 < 1000000.
Proof.
  intros Hdays. unfold civil_from_days. cbn [fst].
  set (z := days + 719468). set (era := z / 146097).
  set (doe := z - era * 146097).
  set (yoe := (doe - doe / 1460 + doe / 36524 - doe / 146096) / 365).
  assert (0 ≤ doe < 146097) as Hdoe.
  { unfold doe, era. Z.div_mod_to_equations. lia. }
  assert (0 ≤ yoe ≤ 399) as Hyoe.
  { unfold yoe. clearbody doe. Z.div_mod_to_equations. lia. }
  assert (-700 ≤ era ≤ 700) as Hera.
  { unfold era, z. Z.div_mod_to_equations. lia. }
  destruct (_ <=? 2); lia.
Qed.

Lemma read_year_digit n s :
  read_year (String (digit n) s) = digits 4 0 (String (digit n) s).
Proof.
  unfold digit. pose proof (Z.mod_pos_bound n 10 ltac:(lia)) as Hn.
  assert (∃ k, (k < 10)%nat ∧ n mod 10 = Z.of_nat k) as (k & Hk & ->).
  { exists (Z.to_nat (n mod 10)). lia. }
  rewrite Nat2Z.id.
  do 10 (destruct k as [|k]; [reflexivity|]). lia.
Qed.

Lemma read_year_iso_year y s :
  -1000000 < y < 1000000 →
  read_year (iso_year y +:+ s) = Some (y, s).
Proof.
  intros Hy. unfold iso_year.
  destruct (Z.leb_spec 0 y); cbn [andb].
  - destruct (Z.leb_spec y 9999); cbn [andb].
    + unfold pad4 at 1. rewrite append_String, read_year_digit.
      rewrite <- append_String. fold (pad4 y). apply digits_4. lia.
    + destruct (Z.ltb_spec y 0); [lia|].
      rewrite !append_String, append_empty. cbn [read_year].
      apply digits_pad6. lia.
  - destruct (Z.ltb_spec y 0); [|lia].
    rewrite !append_String, append_empty. cbn [read_year].
    rewrite digits_pad6 by lia. cbn. do 2 f_equal. lia.
Qed.

Lemma expect_String c s : expect c (String c s) = Some s.
Proof. cbn. by rewrite Ascii.eqb_refl. Qed.

(** Read back, the text [toISOString] prints denotes the very instant
    printed, for every time value a [Date] can hold. *)
Lemma iso_instant_iso_string t :
  Z.abs t ≤ 8640000000000000 → iso_instant (iso_string t) = Some t.
Proof.
  intros Ht. unfold iso_string.
  pose proof (civil_from_days_range (t / msPerDay)) as Hdate.
  pose proof (civil_from_days_year (t / msPerDay)) as Hyear.
  destruct (civil_from_days (t / msPerDay)) as [[y m] d].
  destruct Hdate as (Hm & Hd & Hdays). cbn [fst] in Hyear.
  pose proof (days_in_month_bounds y m) as Hlength.
  assert (-1000000 < y < 1000000) as Hy.
  { apply Hyear. unfold msPerDay. Z.div_mod_to_equations. lia. }
  pose proof (time_within_day (t mod msPerDay)
                (Z.mod_pos_bound t msPerDay eq_refl))
    as (Hh & Hmi & Hs & Hms & Htime).
  unfold iso_instant. rewrite read_year_iso_year by done.
  repeat first
    [ progress cbn [mbind option_bind]
    | rewrite append_String, append_empty, expect_String
    | rewrite digits_2 by lia
    | rewrite digits_3 by lia
    | rewrite within_Some by lia ].
  rewrite expect_String. cbn [mbind option_bind].
  f_equal. rewrite Hdays.
  pose proof (Z.div_mod t msPerDay ltac:(done)). lia.
Qed.

(** ** [Promise.all] *)

Section PromiseAllFacts.
Context {A : Type}.
Implicit Types (vs : list A) (order : list nat) (values : list (option A)).

Lemma omap_id_Some vs : omap id (Some <$> vs) = vs.
Proof. induction vs as [|v vs IH]; [done|]. cbn. by rewrite IH. Qed.

Lemma slots_filled vs values :
  (∀ j, values !! j = slot [] j <$> vs !! j) → omap id values = vs.
Proof.
  intros Hvalues. transitivity (omap id (Some <$> vs)); [|apply omap_id_Some].
  f_equal. apply list_eq. intros j. rewrite Hvalues, list_lookup_fmap.
  destruct (vs !! j); [|done]. cbn. unfold slot.
  case_decide as Hj; [|done]. by apply elem_of_nil in Hj.
Qed.

Lemma slots_insert vs values order i v :
  i ∉ order → vs !! i = Some v →
  (∀ j, values !! j = slot (i :: order) j <$> vs !! j) →
  ∀ j, <[i := Some v]> values !! j = slot order j <$> vs !! j.
Proof.
  intros Hi Hv Hvalues j. destruct (decide (j = i)) as [->|Hne].
  - rewrite list_lookup_insert_eq.
    + rewrite Hv. cbn. unfold slot. by rewrite decide_False.
    + apply lookup_lt_is_Some. rewrite Hvalues, Hv. by eexists.
  - rewrite list_lookup_insert_ne by done. rewrite Hvalues.
    destruct (vs !! j); [|done]. cbn. unfold slot.
    repeat case_decide; set_solver.
Qed.

(** When every promise is fulfilled and each settles once, whatever
    the order, the result array is the array of their values, each at
    the index of its promise. *)
Lemma resolve_elements_fulfilled vs order values :
  NoDup order → (∀ i, i ∈ order → (i < length vs)%nat) → order ≠ [] →
  (∀ j, values !! j = slot order j <$> vs !! j) →
  resolve_elements (Fulfilled <$> vs) order values (length order)
  = Returns vs.
Proof.
  revert values. induction order as [|i order IH]; [done|].
  intros values Hnodup Hrange _ Hvalues.
  apply NoDup_cons in Hnodup as [Hi Hnodup].
  destruct (lookup_lt_is_Some_2 vs i) as [v Hv]; [apply Hrange; set_solver|].
  assert (values !! i = Some None) as Hslot.
  { rewrite Hvalues, Hv. cbn. unfold slot. rewrite decide_True; set_solver. }
  cbn [resolve_elements length]. rewrite list_lookup_fmap, Hv, Hslot. cbn.
  pose proof (slots_insert vs values order i v Hi Hv Hvalues) as Hvalues'.
  destruct order as [|i' order'].
  - cbn. f_equal. by apply slots_filled.
  - apply IH; [done| |done|done]. intros j Hj. apply Hrange. set_solver.
Qed.

(** When one of the promises is rejected and each settles once, the
    combined promise is rejected, with the reason of one of them, and
    no result array is produced. *)
Lemma resolve_elements_rejected (promises : list (settled A)) order values i e :
  NoDup order →
  (∀ j, j ∈ order → values !! j = Some None ∧ (j < length promises)%nat) →
  i ∈ order → promises !! i = Some (Rejected e) →
  ∃ e', Rejected e' ∈ promises ∧
        resolve_elements promises order values (length order) = Throws e'.
Proof.
  revert values. induction order as [|i0 order IH]; intros values Hnodup Hslots Hi He.
  { by apply elem_of_nil in Hi. }
  apply NoDup_cons in Hnodup as [Hi0 Hnodup].
  destruct (Hslots i0) as [Hslot Hlt]; [set_solver|].
  destruct (lookup_lt_is_Some_2 promises i0 Hlt) as [p Hp].
  cbn [resolve_elements length]. rewrite Hp.
  destruct p as [x|r].
  - rewrite Hslot.
    assert (i ∈ order) as Hi' by (apply elem_of_cons in Hi as [->|]; [congruence|done]).
    destruct order as [|i1 order']; [by apply elem_of_nil in Hi'|].
    apply IH; [done| |done|done].
    intros j Hj. destruct (Hslots j) as [Hj1 Hj2]; [set_solver|].
    split; [|done]. rewrite list_lookup_insert_ne; [done|]. set_solver.
  - exists r. split; [|done]. apply list_elem_of_lookup. eauto.
Qed.

Lemma permutation_seq_facts order n :
  order ≡ₚ seq 0 n →
  NoDup order ∧ (∀ i, i ∈ order ↔ (i < n)%nat) ∧ length order = n.
Proof.
  intros Hperm. split; [|split].
  - rewrite Hperm. apply NoDup_seq.
  - intros i. rewrite Hperm, elem_of_seq. lia.
  - rewrite Hperm. apply length_seq.
Qed.

Lemma Promise_all_fulfilled vs order st :
  order ≡ₚ seq 0 (length vs) →
  Promise_all (Fulfilled <$> vs) order st = (Returns vs, st).
Proof.
  intros (Hnodup & Hin & Hlen)%permutation_seq_facts.
  assert (vs ≠ [] →
          resolve_elements (Fulfilled <$> vs) order
            (replicate (length vs) None) (length order) = Returns vs) as Hall.
  { intros Hne. apply resolve_elements_fulfilled; [done|by intros i ?%Hin| |].
    - intros ->. destruct vs; [done|]. cbn in Hlen. lia.
    - intros j. destruct (vs !! j) as [v|] eqn:Hj; cbn.
      + apply lookup_replicate. split; [|by eapply lookup_lt_Some].
        unfold slot. rewrite decide_True; [done|].
        apply Hin. by eapply lookup_lt_Some.
      + apply lookup_ge_None. rewrite length_replicate.
        by apply lookup_ge_None. }
  unfold Promise_all. destruct vs as [|v vs]; [done|].
  rewrite Hlen in Hall. cbn [fmap list_fmap length] in *.
  rewrite length_fmap. by rewrite Hall.
Qed.

Lemma Promise_all_rejected (promises : list (settled A)) order i e st :
  order ≡ₚ seq 0 (length promises) →
  promises !! i = Some (Rejected e) →
  ∃ e', Rejected e' ∈ promises ∧
        Promise_all promises order st = (Throws e', st).
Proof.
  intros (Hnodup & Hin & Hlen)%permutation_seq_facts He.
  destruct (resolve_elements_rejected promises order
              (replicate (length promises) None) i e) as (e' & He' & Hall);
    [done| |by eapply Hin, lookup_lt_Some|done|].
  { intros j Hj%Hin. split; [|done]. by apply lookup_replicate. }
  exists e'. split; [done|]. unfold Promise_all.
  destruct promises as [|p promises]; [done|].
  rewrite Hlen in Hall. by rewrite Hall.
Qed.
End PromiseAllFacts.

(** ** The configuration gate *)

Lemma not_value_present v : not_value v = false ↔ present v.
Proof.
  unfold present. destruct v as [[|c s]|]; cbn; naive_solver.
Qed.

Lemma not_value_missing v : not_value v = true ↔ v = None ∨ v = Some "".
Proof. destruct v as [[|c s]|]; cbn; naive_solver. Qed.

(** The downstream URL is never the empty string, whatever [BASE_URL]. *)
Lemma notionUpdateApiUrl_truthy env : not_string (notionUpdateApiUrl env) = false.
Proof.
  unfold notionUpdateApiUrl.
  destruct (template (BASE_URL env)) as [|c s]; done.
Qed.

Section RouteFacts.
Variable env : Env.
Variable w : World.

Lemma POST_configured req :
  configured env →
  POST env w req =
    if strict_eq (x_github_event req) "push" then
      getCommit env w true ≫= updateCommit env w
    else if strict_eq (x_github_event req) "getBranch" then
      getCommit env w false ≫= λ branchDetails,
        NextResponse_json (FetchedBody branchDetails) 200
    else NextResponse_json (MessageBody "Event not supported") 400.
Proof.
  intros (Ho%not_value_present & Hr%not_value_present & Ht%not_value_present).
  unfold POST, owner, repo, githubToken.
  by rewrite Ho, Hr, Ht, notionUpdateApiUrl_truthy.
Qed.

Lemma POST_not_configured req st :
  not_value (GITHUB_REPO_OWNER env) = true ∨
  not_value (GITHUB_REPO_NAME env) = true ∨
  not_value (GITHUB_TOKEN env) = true →
  POST env w req st =
    (Returns (response (ErrorBody "Environment variables not set correctly.") 500), st).
Proof.
  intros H. unfold POST, owner, repo, githubToken.
  destruct H as [-> | [-> | ->]]; cbn; rewrite ?orb_true_r; done.
Qed.

Lemma strict_eq_true v s : strict_eq v s = true ↔ v = Some s.
Proof.
  destruct v as [t|]; cbn; [|done]. rewrite String.eqb_eq. naive_solver.
Qed.

Lemma strict_eq_false v s : strict_eq v s = false ↔ v ≠ Some s.
Proof. rewrite <- strict_eq_true. by destruct (strict_eq v s). Qed.

(** ** The fetcher *)

Lemma getISOTimeFiveMinutesAgo_in_range st :
  cutoff_in_range w →
  getISOTimeFiveMinutesAgo w st = (Returns (iso_string (now w - 300000)), st).
Proof.
  unfold cutoff_in_range, getISOTimeFiveMinutesAgo, Date_new. intros Hrange.
  change (5 * 60 * 1000) with 300000.
  by rewrite (proj2 (Z.leb_le _ _) Hrange).
Qed.

Lemma map_async_fetch_detail commits st :
  map_async (fetch_detail env w) commits st =
    (Returns
       (imap (λ i commit,
                then_ format_commit
                  (commit_endpoint w (length (outbound st) + i)
                                   (commit_detail_request env commit)))
             commits),
     after (outbound st ++ (commit_detail_request env <$> commits))
           (console_error st)).
Proof.
  revert st. induction commits as [|commit commits IH]; intros st.
  - cbn. rewrite app_nil_r. by destruct st.
  - cbn [map_async]. erewrite bind_returns; [|reflexivity].
    erewrite bind_returns; [|apply IH].
    cbn. rewrite length_app, <- app_assoc. cbn. unfold ret.
    rewrite Nat.add_0_r. do 3 f_equal.
    apply imap_ext. intros i c _. cbn. do 2 f_equal. lia.
Qed.

Lemma getISOTimeFiveMinutesAgo_cutoff st :
  cutoff_in_range w →
  getISOTimeFiveMinutesAgo w st = (Returns (cutoff w), st).
Proof. apply getISOTimeFiveMinutesAgo_in_range. Qed.

Lemma promises_of_answers commits :
  imap (λ i commit,
          then_ format_commit
            (commit_endpoint w (length [commit_list_request env (cutoff w)] + i)
                             (commit_detail_request env commit)))
       commits
  = then_ format_commit <$> detail_answers env w commits.
Proof. unfold detail_answers. by rewrite fmap_imap. Qed.

Lemma getCommit_branches commits branches :
  cutoff_in_range w →
  commits_endpoint w 0 (commit_list_request env (cutoff w)) = Fulfilled commits →
  branches_endpoint w 1 (branches_request env) = Fulfilled branches →
  getCommit env w false initial =
    (Returns (BranchOnlyResult (name <$> branches)),
     after [commit_list_request env (cutoff w); branches_request env] []).
Proof.
  intros Hrange Hlist Hbranches. unfold getCommit. apply try_catch_returns.
  erewrite bind_returns; [|by apply getISOTimeFiveMinutesAgo_cutoff].
  erewrite bind_returns; [|reflexivity]. cbn [initial outbound length].
  rewrite Hlist. erewrite bind_returns; [|reflexivity]. cbn [negb].
  erewrite bind_returns; [|reflexivity]. cbn [outbound length app].
  rewrite Hbranches. erewrite bind_returns; [|reflexivity]. done.
Qed.

Lemma getCommit_details commits details :
  cutoff_in_range w →
  commits_endpoint w 0 (commit_list_request env (cutoff w)) = Fulfilled commits →
  detail_answers env w commits = Fulfilled <$> details →
  all_settle w (length commits) →
  getCommit env w true initial =
    (Returns (Details (format_commit <$> details)),
     after (commit_list_request env (cutoff w)
              :: (commit_detail_request env <$> commits)) []).
Proof.
  intros Hrange Hlist Hdetails Hsettle. unfold getCommit. apply try_catch_returns.
  erewrite bind_returns; [|by apply getISOTimeFiveMinutesAgo_cutoff].
  erewrite bind_returns; [|reflexivity]. cbn [initial outbound length].
  rewrite Hlist. erewrite bind_returns; [|reflexivity]. cbn [negb].
  erewrite bind_returns; [|apply map_async_fetch_detail].
  cbn [outbound console_error app]. rewrite promises_of_answers, Hdetails.
  assert (then_ format_commit <$> (Fulfilled <$> details)
          = Fulfilled <$> (format_commit <$> details)) as ->.
  { rewrite <- !list_fmap_compose. done. }
  assert (length commits = length details) as Hlen.
  { rewrite <- (length_imap (λ i commit, commit_endpoint w (S i)
                               (commit_detail_request env commit)) commits).
    fold (detail_answers env w commits). by rewrite Hdetails, length_fmap. }
  erewrite bind_returns; [done|]. apply Promise_all_fulfilled.
  rewrite !length_fmap, <- Hlen. apply Hsettle.
Qed.

Lemma getCommit_list_rejected includeDetails e :
  cutoff_in_range w →
  commits_endpoint w 0 (commit_list_request env (cutoff w)) = Rejected e →
  getCommit env w includeDetails initial =
    (Throws e, after [commit_list_request env (cutoff w)] [e]).
Proof.
  intros Hrange Hlist. unfold getCommit. erewrite try_catch_throws; cycle 1.
  - erewrite bind_returns; [|by apply getISOTimeFiveMinutesAgo_cutoff].
    erewrite bind_returns; [|reflexivity]. cbn [initial outbound length].
    rewrite Hlist. by erewrite bind_throws.
  - erewrite bind_returns; reflexivity.
Qed.

Lemma getCommit_detail_rejected commits i e :
  cutoff_in_range w →
  commits_endpoint w 0 (commit_list_request env (cutoff w)) = Fulfilled commits →
  detail_answers env w commits !! i = Some (Rejected e) →
  all_settle w (length commits) →
  ∃ e', Rejected e' ∈ detail_answers env w commits ∧
    getCommit env w true initial =
      (Throws e',
       after (commit_list_request env (cutoff w)
                :: (commit_detail_request env <$> commits)) [e']).
Proof.
  intros Hrange Hlist Hrejected Hsettle.
  set (promises := then_ format_commit <$> detail_answers env w commits).
  assert (length promises = length commits) as Hlen.
  { unfold promises, detail_answers. by rewrite length_fmap, length_imap. }
  destruct (Promise_all_rejected promises (completion_order w (length promises))
              i e (after (commit_list_request env (cutoff w)
                            :: (commit_detail_request env <$> commits)) []))
    as (e' & He' & Hall).
  { rewrite Hlen. apply Hsettle. }
  { unfold promises. by rewrite list_lookup_fmap, Hrejected. }
  exists e'. split.
  { unfold promises in He'. apply list_elem_of_fmap in He' as ([d|r] & Hr & Hin).
    - done.
    - cbn in Hr. by injection Hr as ->. }
  unfold getCommit. erewrite try_catch_throws; cycle 1.
  - erewrite bind_returns; [|by apply getISOTimeFiveMinutesAgo_cutoff].
    erewrite bind_returns; [|reflexivity]. cbn [initial outbound length].
    rewrite Hlist. erewrite bind_returns; [|reflexivity]. cbn [negb].
    erewrite bind_returns; [|apply map_async_fetch_detail].
    cbn [outbound console_error app]. rewrite promises_of_answers.
    fold promises. erewrite bind_throws; [done|]. apply Hall.
  - erewrite bind_returns; reflexivity.
Qed.

(** ** The forwarder *)

Lemma updateCommit_fulfilled commitDetails st data :
  notion_endpoint w (length (outbound st)) (notion_request env commitDetails)
    = Fulfilled data →
  updateCommit env w commitDetails st =
    (Returns (response (ProcessedBody "Commits processed and sent to Notion API"
                                      data commitDetails) 200),
     after (outbound st ++ [notion_request env commitDetails]) (console_error st)).
Proof.
  intros Hanswer. unfold updateCommit. apply try_catch_returns.
  erewrite bind_returns; [|reflexivity]. rewrite Hanswer.
  erewrite bind_returns; reflexivity.
Qed.

Lemma updateCommit_rejected commitDetails st e :
  notion_endpoint w (length (outbound st)) (notion_request env commitDetails)
    = Rejected e →
  updateCommit env w commitDetails st =
    match e with
    | AxiosError (Some r) =>
        NextResponse_json (ErrorBody (statusText r)) (status r)
    | _ => NextResponse_json (ErrorBody "Internal Server Error") 500
    end (after (outbound st ++ [notion_request env commitDetails])
               (console_error st)).
Proof.
  intros Hanswer. unfold updateCommit. erewrite try_catch_throws; cycle 1.
  - erewrite bind_returns; [|reflexivity]. rewrite Hanswer.
    by erewrite bind_throws.
  - done.
Qed.

(** A status the [Response] constructor refuses makes the handler of
    the [catch] block throw in its turn. *)
Lemma updateCommit_status_out_of_range commitDetails st r :
  notion_endpoint w (length (outbound st)) (notion_request env commitDetails)
    = Rejected (AxiosError (Some r)) →
  ¬ 200 ≤ status r ≤ 599 →
  ∃ e, updateCommit env w commitDetails st =
         (Throws e,
          after (outbound st ++ [notion_request env commitDetails])
                (console_error st)).
Proof.
  intros Hanswer Hstatus. erewrite updateCommit_rejected by done.
  unfold NextResponse_json.
  destruct (Z.leb_spec 200 (status r)), (Z.leb_spec (status r) 599);
    cbn [andb]; [lia|eauto..].
Qed.

Lemma null_body_status_relayable s :
  s ≠ 204 → s ≠ 205 → s ≠ 304 → null_body_status s = false.
Proof.
  intros H204 H205 H304. unfold null_body_status.
  by rewrite (proj2 (Z.eqb_neq _ _) H204), (proj2 (Z.eqb_neq _ _) H205),
    (proj2 (Z.eqb_neq _ _) H304).
Qed.

Lemma NextResponse_json_in_range b s st :
  relayable s → NextResponse_json b s st = (Returns (response b s), st).
Proof.
  intros ([Hlo Hhi] & H204 & H205 & H304). unfold NextResponse_json.
  rewrite (proj2 (Z.leb_le _ _) Hlo), (proj2 (Z.leb_le _ _) Hhi).
  by rewrite null_body_status_relayable.
Qed.

(** ** What goes out first *)

Lemma appends_fetch_detail commit : appends (fetch_detail env w commit).
Proof. unfold fetch_detail. appends. Qed.

Lemma appends_updateCommit commitDetails :
  appends (updateCommit env w commitDetails).
Proof. unfold updateCommit. appends. Qed.

(** Once the cutoff is computed, the commit-list request is the first
    thing [getCommit] sends, in either mode and whatever happens next. *)
Lemma getCommit_first_call includeDetails :
  cutoff_in_range w →
  [commit_list_request env (cutoff w)]
    `prefix_of` outbound (getCommit env w includeDetails initial).2.
Proof.
  intros Hrange. unfold getCommit.
  match goal with |- context [try_catch ?m ?h] => set (fetch := m); set (handler := h) end.
  assert ([commit_list_request env (cutoff w)]
            `prefix_of` outbound (fetch initial).2) as Hfetch.
  { unfold fetch.
    erewrite bind_returns; [|by apply getISOTimeFiveMinutesAgo_cutoff].
    erewrite bind_returns; [|reflexivity].
    match goal with |- context [mbind ?k ?m] => assert (appends (m ≫= k)) as Hrest end.
    { appends. }
    apply Hrest. }
  unfold try_catch. destruct (fetch initial) as [[v|e|] st']; done.
Qed.

(** When the cutoff is not a time a [Date] can hold, [toISOString]
    throws before any request is made. *)
Lemma getCommit_cutoff_out_of_range includeDetails :
  ¬ cutoff_in_range w →
  getCommit env w includeDetails initial =
    (Throws (RangeError "Invalid time value"),
     after [] [RangeError "Invalid time value"]).
Proof.
  unfold cutoff_in_range. intros Hrange. unfold getCommit.
  erewrite try_catch_throws; cycle 1.
  - erewrite bind_throws; [done|].
    unfold getISOTimeFiveMinutesAgo, Date_new.
    change (5 * 60 * 1000) with 300000.
    destruct (Z.leb_spec (Z.abs (now w - 300000)) 8640000000000000); [lia|done].
  - done.
Qed.
End RouteFacts.

(** * The claims of the specification *)

Section Claims.
Variable env : Env.
Variable w : World.
Variable req : NextRequest.

Lemma POST_push :
  configured env → x_github_event req = Some "push" →
  POST env w req = getCommit env w true ≫= updateCommit env w.
Proof.
  intros Hconf Hpush%strict_eq_true. rewrite POST_configured by done.
  by rewrite Hpush.
Qed.

Lemma POST_getBranch :
  configured env → x_github_event req = Some "getBranch" →
  POST env w req =
    getCommit env w false ≫= λ branchDetails,
      NextResponse_json (FetchedBody branchDetails) 200.
Proof.
  intros Hconf Hbranch. rewrite POST_configured by done. by rewrite Hbranch.
Qed.

Lemma POST_other st :
  configured env →
  x_github_event req ≠ Some "push" → x_github_event req ≠ Some "getBranch" →
  POST env w req st =
    (Returns (response (MessageBody "Event not supported") 400), st).
Proof.
  intros Hconf Hpush%strict_eq_false Hbranch%strict_eq_false.
  rewrite POST_configured by done. by rewrite Hpush, Hbranch.
Qed.

(** Whatever the downstream service answers, [updateCommit] makes
    exactly one call, the forwarding one. *)
Lemma updateCommit_outbound commitDetails st :
  outbound (updateCommit env w commitDetails st).2
  = (outbound st ++ [notion_request env commitDetails])%list.
Proof.
  destruct (notion_endpoint w (length (outbound st))
              (notion_request env commitDetails)) as [data|e] eqn:Hanswer.
  - by erewrite updateCommit_fulfilled.
  - erewrite updateCommit_rejected by done.
    destruct e as [[r|]|?|?|?]; unfold NextResponse_json;
      by destruct (_ && _); [destruct (null_body_status _)|].
Qed.
(** [updateCommit] never leaves the record of calls as it found it. *)
Lemma updateCommit_changes_state commitDetails st out st' :
  outbound st `prefix_of` outbound st' →
  updateCommit env w commitDetails st' ≠ (out, st).
Proof.
  intros Hprefix Hrun.
  pose proof (updateCommit_outbound commitDetails st') as Hcalls.
  rewrite Hrun in Hcalls. cbn in Hcalls.
  apply prefix_length in Hprefix. rewrite Hcalls, length_app in Hprefix.
  cbn in Hprefix. lia.
Qed.

Lemma appends_getCommit includeDetails : appends (getCommit env w includeDetails).
Proof. unfold getCommit. appends. Qed.

(** ** The configuration gate *)

(** C2. With [BASE_URL] unset and the owner, the repository name and
    the token set, the downstream URL is the non-empty text
    ["undefined/api/updatenotioncalendar"], the presence check on it
    passes, and [POST] does not answer as the gate does (the
    misconfiguration reply with no call made): the request goes on to
    the event dispatch, where a push or a getBranch event sends the
    commit-list request (the cutoff being a time a [Date] can hold). *)
Theorem POST_base_url_unset_passes_gate :
  configured env → BASE_URL env = None →
  notionUpdateApiUrl env = "undefined/api/updatenotioncalendar" ∧
  not_string (notionUpdateApiUrl env) = false ∧
  (∀ st, POST env w req st ≠ (Returns misconfiguration, st)) ∧
  (x_github_event req = Some "push" ∨ x_github_event req = Some "getBranch" →
   cutoff_in_range w →
   ∃ rest, outbound (POST env w req initial).2
           = commit_list_request env (cutoff w) :: rest).
Proof.
  intros Hconf Hbase. split; [|split; [|split]].
  - unfold notionUpdateApiUrl. by rewrite Hbase.
  - apply notionUpdateApiUrl_truthy.
  - intros st.
    destruct (decide (x_github_event req = Some "push")) as [Hpush|Hpush].
    { rewrite POST_push by done. unfold mbind, M_bind, bind.
      pose proof (appends_getCommit true st) as Hfetch.
      destruct (getCommit env w true st) as [[v|e|] st']; [|done..].
      by apply updateCommit_changes_state. }
    destruct (decide (x_github_event req = Some "getBranch")) as [Hbranch|Hbranch].
    { rewrite POST_getBranch by done. unfold mbind, M_bind, bind.
      destruct (getCommit env w false st) as [[v|e|] st']; done. }
    by rewrite POST_other.
  - intros Hevent Hrange.
    pose proof (getCommit_first_call env w true Hrange) as Hdetails.
    pose proof (getCommit_first_call env w false Hrange) as Hbranches.
    destruct Hevent as [Hpush|Hbranch].
    + rewrite POST_push by done. unfold mbind, M_bind, bind.
      destruct (getCommit env w true initial) as [[v|e|] st'];
        cbn in Hdetails |- *; destruct Hdetails as [rest Hrest];
        [rewrite updateCommit_outbound|..]; rewrite Hrest; cbn; eauto.
    + rewrite POST_getBranch by done. unfold mbind, M_bind, bind.
      destruct (getCommit env w false initial) as [[v|e|] st'];
        cbn in Hbranches |- *; destruct Hbranches as [rest Hrest];
        rewrite Hrest; cbn; eauto.
Qed.

(** C8. With the configuration in place, a request whose event-type
    header is neither ["push"] nor ["getBranch"], an empty or absent
    header included, is answered [{message: "Event not supported"}]
    with status 400, and the handler's state, the record of outbound
    calls in it, is left as it was: no call is made. *)
Theorem POST_unsupported_event st :
  configured env →
  x_github_event req ≠ Some "push" → x_github_event req ≠ Some "getBranch" →
  POST env w req st =
    (Returns (response (MessageBody "Event not supported") 400), st).
Proof. apply POST_other. Qed.

(** ** Branch mode *)

(** C9. In branch-only mode the fetcher sends the commit-list request
    and then the branches request, in this order and nothing else, and
    returns the names of the branches answer; the commits answered to
    the first call, whatever they are, do not appear in the result. *)
Theorem getCommit_branch_mode commits branches :
  cutoff_in_range w →
  commits_endpoint w 0 (commit_list_request env (cutoff w)) = Fulfilled commits →
  branches_endpoint w 1 (branches_request env) = Fulfilled branches →
  getCommit env w false initial =
    (Returns (BranchOnlyResult (name <$> branches)),
     after [commit_list_request env (cutoff w); branches_request env] []).
Proof. apply getCommit_branches. Qed.

(** C6. A getBranch request whose two upstream calls succeed is
    answered [{branches: [...]}] with status 200, the names being those
    of the branches answer in its order; the calls made are the two
    upstream requests, and none of them is the forwarding [axios.post]. *)
Theorem POST_getBranch_names commits branches :
  configured env → x_github_event req = Some "getBranch" →
  cutoff_in_range w →
  commits_endpoint w 0 (commit_list_request env (cutoff w)) = Fulfilled commits →
  branches_endpoint w 1 (branches_request env) = Fulfilled branches →
  POST env w req initial =
    (Returns (response (FetchedBody (BranchOnlyResult (name <$> branches))) 200),
     after [commit_list_request env (cutoff w); branches_request env] []) ∧
  Forall (λ c, is_post c = false) (outbound (POST env w req initial).2).
Proof.
  intros Hconf Hevent Hrange Hlist Hbranches.
  assert (POST env w req initial =
    (Returns (response (FetchedBody (BranchOnlyResult (name <$> branches))) 200),
     after [commit_list_request env (cutoff w); branches_request env] [])) as Hrun.
  { rewrite POST_getBranch by done.
    erewrite bind_returns; [|by eapply getCommit_branches]. done. }
  split; [done|]. rewrite Hrun. cbn. by repeat constructor.
Qed.

(** ** The push path *)

Lemma detail_answers_lookup commits details i commit :
  detail_answers env w commits = Fulfilled <$> details →
  commits !! i = Some commit →
  ∃ d, details !! i = Some d ∧
       commit_endpoint w (S i) (commit_detail_request env commit) = Fulfilled d.
Proof.
  intros Hdetails Hcommit.
  assert (detail_answers env w commits !! i
          = Some (commit_endpoint w (S i) (commit_detail_request env commit)))
    as Hanswer.
  { unfold detail_answers. by rewrite list_lookup_imap, Hcommit. }
  rewrite Hdetails, list_lookup_fmap in Hanswer.
  destruct (details !! i) as [d|]; [|done]. injection Hanswer as <-. eauto.
Qed.

Lemma detail_answers_length commits details :
  detail_answers env w commits = Fulfilled <$> details →
  length details = length commits.
Proof.
  intros Hdetails.
  rewrite <- (length_fmap Fulfilled details), <- Hdetails.
  apply length_imap.
Qed.

(** C3. On a push whose commit-list call returns N stubs and whose
    per-commit calls all succeed, the calls made are the commit-list
    request, the N per-commit requests in list order and the forwarding
    call, and the list forwarded has N elements, the i-th being the
    formatted answer to the request for the i-th stub; this for every
    order in which the per-commit calls settle. *)
Theorem push_forwards_details_in_list_order commits details :
  configured env → x_github_event req = Some "push" →
  cutoff_in_range w →
  commits_endpoint w 0 (commit_list_request env (cutoff w)) = Fulfilled commits →
  detail_answers env w commits = Fulfilled <$> details →
  all_settle w (length commits) →
  ∃ forwarded,
    outbound (POST env w req initial).2
      = (commit_list_request env (cutoff w)
           :: (commit_detail_request env <$> commits)
           ++ [notion_request env (Details forwarded)])%list ∧
    length forwarded = length commits ∧
    ∀ i commit, commits !! i = Some commit →
      ∃ d, commit_endpoint w (S i) (commit_detail_request env commit)
             = Fulfilled d ∧
           forwarded !! i = Some (format_commit d).
Proof.
  intros Hconf Hevent Hrange Hlist Hdetails Hsettle.
  exists (format_commit <$> details). split; [|split].
  - rewrite POST_push by done.
    erewrite bind_returns; [|by eapply getCommit_details].
    by rewrite updateCommit_outbound.
  - rewrite length_fmap. by apply detail_answers_length.
  - intros i commit Hcommit.
    destruct (detail_answers_lookup commits details i commit) as (d & Hd & Hanswer);
      [done..|].
    exists d. split; [done|]. by rewrite list_lookup_fmap, Hd.
Qed.

(** C7. A push on which the fetch and the forwarding call both succeed
    is answered with status 200 and the body [{message, notionResponse,
    commits}]: the confirmation text, the body of the downstream answer,
    and the very list that was sent in the forwarding call. *)
Theorem POST_push_success commits details data :
  configured env → x_github_event req = Some "push" →
  cutoff_in_range w →
  commits_endpoint w 0 (commit_list_request env (cutoff w)) = Fulfilled commits →
  detail_answers env w commits = Fulfilled <$> details →
  all_settle w (length commits) →
  notion_endpoint w (S (length commits))
    (notion_request env (Details (format_commit <$> details))) = Fulfilled data →
  POST env w req initial =
    (Returns
       (response
          (ProcessedBody "Commits processed and sent to Notion API" data
                         (Details (format_commit <$> details))) 200),
     after (commit_list_request env (cutoff w)
              :: (commit_detail_request env <$> commits)
              ++ [notion_request env (Details (format_commit <$> details))])
           []).
Proof.
  intros Hconf Hevent Hrange Hlist Hdetails Hsettle Hnotion.
  rewrite POST_push by done.
  erewrite bind_returns; [|by eapply getCommit_details].
  erewrite updateCommit_fulfilled; [done|].
  cbn. by rewrite length_fmap.
Qed.

(** C4. On the push path a rejected commit-list call, or one rejected
    per-commit call, makes the whole of [POST] reject: no response is
    built, the error is logged once by the fetcher and rethrown, it is
    the reason of the rejected call (of one of them when several
    per-commit calls are rejected), and the forwarding call is never
    made. *)
Theorem push_fetch_failure_propagates e :
  configured env → x_github_event req = Some "push" →
  cutoff_in_range w →
  fetch_failure env w e →
  ∃ e' calls,
    POST env w req initial = (Throws e', after calls [e']) ∧
    Forall (λ c, is_post c = false) calls ∧
    fetch_failure env w e'.
Proof.
  intros Hconf Hevent Hrange Hfail. rewrite POST_push by done.
  destruct Hfail as [e Hlist|commits i e Hlist Hdetail Hsettle].
  - exists e, [commit_list_request env (cutoff w)]. split; [|split].
    + erewrite bind_throws; [done|]. by apply getCommit_list_rejected.
    + by repeat constructor.
    + by constructor.
  - destruct (getCommit_detail_rejected env w commits i e) as (e' & He' & Hrun);
      [done..|].
    exists e', (commit_list_request env (cutoff w)
                  :: (commit_detail_request env <$> commits)).
    split; [|split].
    + by erewrite bind_throws.
    + constructor; [done|]. apply Forall_fmap, Forall_true. done.
    + apply list_elem_of_lookup in He' as [j Hj].
      by eapply commit_detail_rejected.
Qed.

(** C5. On a push whose fetch succeeded and whose forwarding call
    fails: when the failure carries an HTTP error response whose status
    [NextResponse.json] can put on a reply with a body (within 200..599
    and none of 204, 205, 304), the reply has exactly that status and
    the body [{error: <status text>}]; when the failure carries no HTTP
    response, the reply is status 500 with
    [{error: "Internal Server Error"}]. *)
Theorem POST_forwarding_failure commitDetails st e :
  configured env → x_github_event req = Some "push" →
  getCommit env w true initial = (Returns commitDetails, st) →
  notion_endpoint w (length (outbound st)) (notion_request env commitDetails)
    = Rejected e →
  (∀ r, e = AxiosError (Some r) → relayable (status r) →
     POST env w req initial =
       (Returns (response (ErrorBody (statusText r)) (status r)),
        after (outbound st ++ [notion_request env commitDetails])
              (console_error st))) ∧
  ((∀ r, e ≠ AxiosError (Some r)) →
     POST env w req initial =
       (Returns (response (ErrorBody "Internal Server Error") 500),
        after (outbound st ++ [notion_request env commitDetails])
              (console_error st))).
Proof.
  intros Hconf Hevent Hfetch Hnotion. rewrite POST_push by done.
  erewrite bind_returns; [|done]. erewrite updateCommit_rejected; [|done].
  split.
  - intros r -> Hstatus. by apply NextResponse_json_in_range.
  - intros Hother. destruct e as [[r|]|?|?|?]; [by destruct (Hother r)|done..].
Qed.

(** ** The cutoff *)

(** C10. Whenever the fetcher runs, in either mode, the first call it
    makes is the commit-list request, and its [since] parameter is the
    [toISOString] text of the world's clock less 5 * 60 * 1000 = 300000
    milliseconds; read as a date-time in the ISO format, that text
    denotes exactly that instant (the cutoff being a time a [Date] can
    hold). *)
Theorem getCommit_since_five_minutes_ago includeDetails :
  cutoff_in_range w →
  ∃ since rest,
    getISOTimeFiveMinutesAgo w initial = (Returns since, initial) ∧
    outbound (getCommit env w includeDetails initial).2
      = AxiosGet (commits_url env) (authorization_header env) (Some since)
          :: rest ∧
    since = iso_string (now w - 300000) ∧
    iso_instant since = Some (now w - 300000).
Proof.
  intros Hrange.
  destruct (getCommit_first_call env w includeDetails Hrange) as [rest Hrest].
  exists (iso_string (now w - 300000)), rest. split; [|split; [|split]].
  - by apply getISOTimeFiveMinutesAgo_in_range.
  - by rewrite Hrest.
  - done.
  - by apply iso_instant_iso_string.
Qed.
End Claims.

(** C1. With [BASE_URL] unset, or empty, and the other three values
    set, a push is not answered by the gate: the fetch runs, the commit
    details are posted to ["undefined/api/updatenotioncalendar"] (to
    ["/api/updatenotioncalendar"] for the empty value), and the reply is
    the 200 of a processed push, not the 500 of a misconfiguration. *)
Theorem POST_base_url_unset_posts_to_undefined :
  POST Sample.env_without_base_url Sample.world Sample.push initial =
    (Returns
       (response
          (ProcessedBody "Commits processed and sent to Notion API"
             Sample.accepted (Details (format_commit <$> Sample.details))) 200),
     after
       [ AxiosGet "https://api.github.com/repos/octocat/hello-world/commits"
                  "Bearer ghp_token" (Some "2023-11-14T22:08:20.000Z");
         AxiosGet "https://api.github.com/repos/octocat/hello-world/commits/a1"
                  "Bearer ghp_token" None;
         AxiosGet "https://api.github.com/repos/octocat/hello-world/commits/b2"
                  "Bearer ghp_token" None;
         AxiosGet "https://api.github.com/repos/octocat/hello-world/commits/c3"
                  "Bearer ghp_token" None;
         AxiosPost "undefined/api/updatenotioncalendar"
                   (Details (format_commit <$> Sample.details))
                   "application/json" ]
       []) ∧
  POST Sample.env_with_empty_base_url Sample.world Sample.push initial =
    (Returns
       (response
          (ProcessedBody "Commits processed and sent to Notion API"
             Sample.accepted (Details (format_commit <$> Sample.details))) 200),
     after
       [ AxiosGet "https://api.github.com/repos/octocat/hello-world/commits"
                  "Bearer ghp_token" (Some "2023-11-14T22:08:20.000Z");
         AxiosGet "https://api.github.com/repos/octocat/hello-world/commits/a1"
                  "Bearer ghp_token" None;
         AxiosGet "https://api.github.com/repos/octocat/hello-world/commits/b2"
                  "Bearer ghp_token" None;
         AxiosGet "https://api.github.com/repos/octocat/hello-world/commits/c3"
                  "Bearer ghp_token" None;
         AxiosPost "/api/updatenotioncalendar"
                   (Details (format_commit <$> Sample.details))
                   "application/json" ]
       []).
Proof. split; vm_compute; reflexivity. Qed.

(** The gate does catch the other three values: a missing token is
    answered by the misconfiguration reply, and no call is made. *)
Example POST_token_unset_is_rejected :
  POST Sample.env_without_token Sample.world Sample.push initial
  = (Returns misconfiguration, initial).
Proof. apply POST_not_configured. right. right. reflexivity. Qed.

(** * The claims on the sample deployment *)

Lemma sample_configured : configured Sample.env.
Proof. repeat split; eexists; (split; [reflexivity|discriminate]). Defined.

Lemma sample_configured_without_base_url :
  configured Sample.env_without_base_url.
Proof. repeat split; eexists; (split; [reflexivity|discriminate]). Defined.

Lemma sample_cutoff_in_range commit_list commit notion :
  cutoff_in_range (Sample.world_with commit_list commit notion).
Proof. unfold cutoff_in_range. cbn. lia. Defined.

Lemma sample_all_settle commit_list commit notion n :
  all_settle (Sample.world_with commit_list commit notion) n.
Proof. unfold all_settle. cbn. apply reverse_Permutation. Defined.

Lemma POST_base_url_unset_passes_gate_witness :
  notionUpdateApiUrl Sample.env_without_base_url
    = "undefined/api/updatenotioncalendar" ∧
  not_string (notionUpdateApiUrl Sample.env_without_base_url) = false ∧
  (∀ st, POST Sample.env_without_base_url Sample.world Sample.push st
         ≠ (Returns misconfiguration, st)) ∧
  ∃ rest,
    outbound (POST Sample.env_without_base_url Sample.world Sample.push initial).2
    = commit_list_request Sample.env_without_base_url (cutoff Sample.world)
        :: rest.
Proof.
  destruct (POST_base_url_unset_passes_gate
              Sample.env_without_base_url Sample.world Sample.push)
    as (Hurl & Htruthy & Hgate & Hcalls).
  - apply sample_configured_without_base_url.
  - reflexivity.
  - split; [exact Hurl|]. split; [exact Htruthy|]. split; [exact Hgate|].
    apply Hcalls.
    + left. reflexivity.
    + apply sample_cutoff_in_range.
Defined.

Lemma POST_unsupported_event_witness :
  POST Sample.env Sample.world Sample.ping initial
    = (Returns (response (MessageBody "Event not supported") 400), initial) ∧
  POST Sample.env Sample.world Sample.no_header initial
    = (Returns (response (MessageBody "Event not supported") 400), initial).
Proof.
  split.
  - apply (POST_unsupported_event Sample.env Sample.world Sample.ping initial);
      [apply sample_configured|discriminate|discriminate].
  - apply (POST_unsupported_event Sample.env Sample.world Sample.no_header initial);
      [apply sample_configured|discriminate|discriminate].
Defined.

Lemma getCommit_branch_mode_witness :
  getCommit Sample.env Sample.world false initial =
    (Returns (BranchOnlyResult ["main"; "dev"]),
     after [commit_list_request Sample.env (cutoff Sample.world);
            branches_request Sample.env] []).
Proof.
  apply (getCommit_branch_mode Sample.env Sample.world Sample.commits Sample.heads).
  - apply sample_cutoff_in_range.
  - reflexivity.
  - reflexivity.
Defined.

Lemma POST_getBranch_names_witness :
  POST Sample.env Sample.world Sample.getBranch initial =
    (Returns (response (FetchedBody (BranchOnlyResult ["main"; "dev"])) 200),
     after [commit_list_request Sample.env (cutoff Sample.world);
            branches_request Sample.env] []) ∧
  Forall (λ c, is_post c = false)
         (outbound (POST Sample.env Sample.world Sample.getBranch initial).2).
Proof.
  apply (POST_getBranch_names Sample.env Sample.world Sample.getBranch
           Sample.commits Sample.heads).
  - apply sample_configured.
  - reflexivity.
  - apply sample_cutoff_in_range.
  - reflexivity.
  - reflexivity.
Defined.

Lemma push_forwards_details_in_list_order_witness :
  ∃ forwarded,
    outbound (POST Sample.env Sample.world Sample.push initial).2
      = (commit_list_request Sample.env (cutoff Sample.world)
           :: (commit_detail_request Sample.env <$> Sample.commits)
           ++ [notion_request Sample.env (Details forwarded)])%list ∧
    length forwarded = length Sample.commits ∧
    ∀ i commit, Sample.commits !! i = Some commit →
      ∃ d, commit_endpoint Sample.world (S i)
             (commit_detail_request Sample.env commit) = Fulfilled d ∧
           forwarded !! i = Some (format_commit d).
Proof.
  apply (push_forwards_details_in_list_order Sample.env Sample.world Sample.push
           Sample.commits Sample.details).
  - apply sample_configured.
  - reflexivity.
  - apply sample_cutoff_in_range.
  - reflexivity.
  - reflexivity.
  - apply sample_all_settle.
Defined.

Lemma POST_push_success_witness :
  POST Sample.env Sample.world Sample.push initial =
    (Returns
       (response
          (ProcessedBody "Commits processed and sent to Notion API"
             Sample.accepted (Details (format_commit <$> Sample.details))) 200),
     after (commit_list_request Sample.env (cutoff Sample.world)
              :: (commit_detail_request Sample.env <$> Sample.commits)
              ++ [notion_request Sample.env
                    (Details (format_commit <$> Sample.details))])
           []).
Proof.
  apply (POST_push_success Sample.env Sample.world Sample.push
           Sample.commits Sample.details Sample.accepted).
  - apply sample_configured.
  - reflexivity.
  - apply sample_cutoff_in_range.
  - reflexivity.
  - reflexivity.
  - apply sample_all_settle.
  - reflexivity.
Defined.

Lemma push_fetch_failure_propagates_witness :
  (∃ e' calls,
     POST Sample.env Sample.world_list_fails Sample.push initial
       = (Throws e', after calls [e']) ∧
     Forall (λ c, is_post c = false) calls ∧
     fetch_failure Sample.env Sample.world_list_fails e') ∧
  (∃ e' calls,
     POST Sample.env Sample.world_detail_fails Sample.push initial
       = (Throws e', after calls [e']) ∧
     Forall (λ c, is_post c = false) calls ∧
     fetch_failure Sample.env Sample.world_detail_fails e').
Proof.
  split.
  - apply (push_fetch_failure_propagates Sample.env Sample.world_list_fails
             Sample.push (AxiosError (Some Sample.not_found))).
    + apply sample_configured.
    + reflexivity.
    + apply sample_cutoff_in_range.
    + apply commit_list_rejected. reflexivity.
  - apply (push_fetch_failure_propagates Sample.env Sample.world_detail_fails
             Sample.push (AxiosError (Some Sample.not_found))).
    + apply sample_configured.
    + reflexivity.
    + apply sample_cutoff_in_range.
    + apply (commit_detail_rejected _ _ Sample.commits 1).
      * reflexivity.
      * reflexivity.
      * apply sample_all_settle.
Defined.

Lemma POST_forwarding_failure_witness :
  POST Sample.env Sample.world_rate_limited Sample.push initial =
    (Returns (response (ErrorBody "Too Many Requests") 429),
     after (commit_list_request Sample.env (cutoff Sample.world_rate_limited)
              :: (commit_detail_request Sample.env <$> Sample.commits)
              ++ [notion_request Sample.env
                    (Details (format_commit <$> Sample.details))])
           []) ∧
  POST Sample.env Sample.world_downstream_unreachable Sample.push initial =
    (Returns (response (ErrorBody "Internal Server Error") 500),
     after (commit_list_request Sample.env
                (cutoff Sample.world_downstream_unreachable)
              :: (commit_detail_request Sample.env <$> Sample.commits)
              ++ [notion_request Sample.env
                    (Details (format_commit <$> Sample.details))])
           []).
Proof.
  split.
  - destruct (POST_forwarding_failure Sample.env Sample.world_rate_limited
                Sample.push (Details (format_commit <$> Sample.details))
                (after (commit_list_request Sample.env
                            (cutoff Sample.world_rate_limited)
                          :: (commit_detail_request Sample.env <$> Sample.commits))
                       [])
                (AxiosError (Some Sample.too_many_requests)))
      as [Hrelay _].
    + apply sample_configured.
    + reflexivity.
    + vm_compute. reflexivity.
    + reflexivity.
    + apply (Hrelay Sample.too_many_requests).
      * reflexivity.
      * unfold relayable. cbn. lia.
  - destruct (POST_forwarding_failure Sample.env
                Sample.world_downstream_unreachable
                Sample.push (Details (format_commit <$> Sample.details))
                (after (commit_list_request Sample.env
                            (cutoff Sample.world_downstream_unreachable)
                          :: (commit_detail_request Sample.env <$> Sample.commits))
                       [])
                (AxiosError None))
      as [_ Hgeneric].
    + apply sample_configured.
    + reflexivity.
    + vm_compute. reflexivity.
    + reflexivity.
    + apply Hgeneric. discriminate.
Defined.

(** C5, as first stated, fails where the downstream service answers
    304 Not Modified: the reply cannot be built, and [POST] rejects
    with a [TypeError] instead of answering 304. *)
Lemma POST_forwarding_failure_not_relayed_at_304 :
  notion_endpoint Faults.world_status_304 4
    (notion_request Sample.env (Details (format_commit <$> Sample.details)))
    = Rejected (AxiosError (Some Faults.not_modified)) ∧
  (POST Sample.env Faults.world_status_304 Sample.push initial).1
    ≠ Returns (response (ErrorBody "Not Modified") 304) ∧
  ∃ message,
    (POST Sample.env Faults.world_status_304 Sample.push initial).1
    = Throws (TypeError message).
Proof.
  split; [reflexivity|]. split.
  - vm_compute. discriminate.
  - eexists. vm_compute. reflexivity.
Qed.

Lemma getCommit_since_five_minutes_ago_witness :
  ∃ since rest,
    getISOTimeFiveMinutesAgo Sample.world initial = (Returns since, initial) ∧
    outbound (getCommit Sample.env Sample.world true initial).2
      = AxiosGet (commits_url Sample.env) (authorization_header Sample.env)
                 (Some since) :: rest ∧
    since = iso_string (1700000000000 - 300000) ∧
    iso_instant since = Some (1700000000000 - 300000).
Proof.
  apply (getCommit_since_five_minutes_ago Sample.env Sample.world true).
  apply sample_cutoff_in_range.
Defined.

(** * Further properties *)

(** ** [Promise.all] under any completion order *)

Section PromiseAllAnyOrder.
Context {A : Type}.
Implicit Types (promises : list (settled A)) (order : list nat)
  (values : list (option A)).

Lemma unfilled_insert values i x :
  values !! i = Some None →
  S (unfilled (<[i := Some x]> values)) = unfilled values.
Proof.
  revert i. induction values as [|[v|] values IH]; intros [|i] Hi; try done.
  - cbn in *. by apply IH.
  - cbn in *. f_equal. by apply IH.
Qed.

Lemma unfilled_lookup values k :
  values !! k = Some None → (0 < unfilled values)%nat.
Proof.
  revert k. induction values as [|[v|] values IH]; intros [|k] Hk; try done.
  - cbn in *. by eapply IH.
  - cbn. lia.
  - cbn. lia.
Qed.

Lemma unfilled_none values :
  unfilled values = 0%nat → values = Some <$> omap id values.
Proof.
  induction values as [|[v|] values IH]; intros Hfull; try done.
  cbn in *. f_equal. by apply IH.
Qed.

Lemma consistent_start promises :
  consistent promises (replicate (length promises) None) (length promises).
Proof.
  split; [|split].
  - apply length_replicate.
  - induction promises as [|p promises IH]; cbn; [done|]. by f_equal.
  - intros j v [Hj _]%lookup_replicate. done.
Qed.

Lemma consistent_insert promises values remaining i x :
  consistent promises values (S remaining) →
  promises !! i = Some (Fulfilled x) → values !! i = Some None →
  consistent promises (<[i := Some x]> values) remaining.
Proof.
  intros (Hlen & Hcount & Hslots) Hp Hslot. split; [|split].
  - by rewrite length_insert.
  - pose proof (unfilled_insert values i x Hslot). lia.
  - intros j v. destruct (decide (j = i)) as [->|Hne].
    + rewrite list_lookup_insert_eq by by eapply lookup_lt_Some.
      by intros [= <-].
    + rewrite list_lookup_insert_ne by done. apply Hslots.
Qed.

Lemma consistent_slot promises values remaining i x :
  consistent promises values remaining →
  promises !! i = Some (Fulfilled x) →
  (∃ v, values !! i = Some (Some v)) ∨ values !! i = Some None.
Proof.
  intros (Hlen & _) Hp.
  destruct (lookup_lt_is_Some_2 values i) as [[v|] Hv]; eauto.
  rewrite Hlen. by eapply lookup_lt_Some.
Qed.

Lemma consistent_full promises values :
  consistent promises values 0 → promises = Fulfilled <$> omap id values.
Proof.
  intros (Hlen & Hfull%unfilled_none & Hslots). apply list_eq. intros j.
  rewrite list_lookup_fmap.
  destruct (omap id values !! j) as [v|] eqn:Hv; cbn.
  - apply Hslots. by rewrite Hfull, list_lookup_fmap, Hv.
  - apply lookup_ge_None. rewrite <- Hlen, Hfull, length_fmap.
    by apply lookup_ge_None.
Qed.

(** Whatever the order in which the promises settle, even one that
    names a promise twice or not at all: when the combined promise is
    fulfilled, every promise was fulfilled and the result array holds
    their values in the order of the promises. *)
Lemma resolve_elements_returns promises order values remaining vs :
  consistent promises values remaining →
  resolve_elements promises order values remaining = Returns vs →
  promises = Fulfilled <$> vs.
Proof.
  revert values remaining.
  induction order as [|i order IH]; intros values remaining Hinv Hrun; [done|].
  cbn [resolve_elements] in Hrun.
  destruct (promises !! i) as [[x|e]|] eqn:Hp; [|done|by eapply IH].
  destruct (consistent_slot _ _ _ i x Hinv Hp) as [[v Hslot]|Hslot];
    rewrite Hslot in Hrun; [by eapply IH|].
  destruct remaining as [|[|remaining]]; [done| |].
  - injection Hrun as <-. apply consistent_full.
    by eapply consistent_insert.
  - eapply IH; [|done]. by eapply consistent_insert.
Qed.

Lemma Promise_all_returns promises order st vs st' :
  Promise_all promises order st = (Returns vs, st') →
  promises = Fulfilled <$> vs ∧ st' = st.
Proof.
  unfold Promise_all. destruct promises as [|p promises].
  - by intros [= <- <-].
  - intros [= Hrun <-]. split; [|done].
    eapply resolve_elements_returns; [|done]. apply consistent_start.
Qed.

(** While promise [k] has not settled, the promises that settle
    fulfilled leave the combined promise pending. *)
Lemma resolve_elements_pending promises pre rest values remaining k :
  consistent promises values remaining →
  values !! k = Some None → k ∉ pre →
  (∀ j e, j ∈ pre → promises !! j ≠ Some (Rejected e)) →
  ∃ values' remaining',
    resolve_elements promises (pre ++ rest) values remaining
    = resolve_elements promises rest values' remaining' ∧
    consistent promises values' remaining' ∧ values' !! k = Some None.
Proof.
  revert values remaining.
  induction pre as [|i pre IH]; intros values remaining Hinv Hk Hnotin Hpre.
  { by exists values, remaining. }
  apply not_elem_of_cons in Hnotin as [Hne Hnotin].
  assert (∀ j e, j ∈ pre → promises !! j ≠ Some (Rejected e)) as Hpre'.
  { intros j e Hj. apply Hpre. by right. }
  cbn [app resolve_elements].
  destruct (promises !! i) as [[x|e]|] eqn:Hp.
  - destruct (consistent_slot _ _ _ i x Hinv Hp) as [[v Hslot]|Hslot];
      rewrite Hslot; [by apply IH|].
    assert (<[i := Some x]> values !! k = Some None) as Hk'.
    { by rewrite list_lookup_insert_ne. }
    destruct remaining as [|remaining].
    { destruct Hinv as (_ & Hcount & _).
      pose proof (unfilled_lookup values k Hk). lia. }
    pose proof (consistent_insert _ _ _ i x Hinv Hp Hslot) as Hinv'.
    destruct remaining as [|remaining].
    { destruct Hinv' as (_ & Hcount & _).
      pose proof (unfilled_lookup _ k Hk'). lia. }
    by apply IH.
  - destruct (Hpre i e); [by left|done].
  - by apply IH.
Qed.

(** A promise that never settles, the others fulfilled or never
    settling either, leaves [Promise.all] pending for ever. *)
Lemma Promise_all_hangs promises order k st :
  (k < length promises)%nat → k ∉ order →
  (∀ j e, j ∈ order → promises !! j ≠ Some (Rejected e)) →
  Promise_all promises order st = (Hangs, st).
Proof.
  intros Hk Hnotin Hfulfilled. unfold Promise_all.
  destruct promises as [|p promises]; [cbn in Hk; lia|]. f_equal.
  destruct (resolve_elements_pending (p :: promises) order []
              (replicate (length (p :: promises)) None)
              (length (p :: promises)) k)
    as (values' & remaining' & Hrun & _); [apply consistent_start| |done..|].
  { by apply lookup_replicate. }
  rewrite app_nil_r in Hrun. by rewrite Hrun.
Qed.

(** The combined promise is rejected with the reason of the first
    promise to be rejected, in the order of settling. *)
Lemma Promise_all_first_rejection promises pre i post e st :
  promises !! i = Some (Rejected e) →
  (∀ j e', j ∈ pre → promises !! j ≠ Some (Rejected e')) →
  Promise_all promises (pre ++ i :: post) st = (Throws e, st).
Proof.
  intros Hi Hpre. unfold Promise_all.
  destruct promises as [|p promises]; [done|]. f_equal.
  destruct (resolve_elements_pending (p :: promises) pre (i :: post)
              (replicate (length (p :: promises)) None)
              (length (p :: promises)) i)
    as (values' & remaining' & Hrun & _); [apply consistent_start| | |done|].
  { apply lookup_replicate. split; [done|]. by eapply lookup_lt_Some. }
  { intros Hin. by destruct (Hpre i e). }
  rewrite Hrun. cbn [resolve_elements]. by rewrite Hi.
Qed.
End PromiseAllAnyOrder.

(** ** What a computation sends *)

Section SendsOnly.
Variable P : call → Prop.

Lemma sends_only_ret {A} (a : A) : sends_only P (mret a).
Proof. intros st. exists []. rewrite app_nil_r. by destruct st. Qed.

Lemma sends_only_throw {A} e : sends_only P (@throw A e).
Proof. intros st. exists []. rewrite app_nil_r. by destruct st. Qed.

Lemma sends_only_bind {A B} (m : M A) (k : A → M B) :
  sends_only P m → (∀ a, sends_only P (k a)) → sends_only P (m ≫= k).
Proof.
  intros Hm Hk st. unfold mbind, M_bind, bind.
  destruct (Hm st) as (calls & Hst & Hcalls).
  destruct (m st) as [[a|e|] st']; cbn in Hst; subst st'; [|by eauto..].
  destruct (Hk a (after (outbound st ++ calls) (console_error st)))
    as (calls' & Hst' & Hcalls').
  exists (calls ++ calls')%list. rewrite Hst'. cbn. rewrite app_assoc.
  split; [done|]. by apply Forall_app.
Qed.

Lemma sends_only_await {A} (p : settled A) : sends_only P (await p).
Proof. destruct p; [apply sends_only_ret|apply sends_only_throw]. Qed.

Lemma sends_only_axios {A} (endpoint : nat → call → settled A) c :
  P c → sends_only P (axios endpoint c).
Proof. intros Hc st. exists [c]. split; [done|]. by constructor. Qed.

Lemma sends_only_Promise_all {A} (promises : list (settled A)) order :
  sends_only P (Promise_all promises order).
Proof. intros st. exists []. rewrite app_nil_r. by destruct st. Qed.

Lemma sends_only_map_async {A B} (f : A → M (settled B)) l :
  (∀ x, sends_only P (f x)) → sends_only P (map_async f l).
Proof.
  intros Hf. induction l as [|x l IH]; cbn [map_async].
  - apply sends_only_ret.
  - apply sends_only_bind; [done|]. intros p.
    apply sends_only_bind; [done|]. intros ps. apply sends_only_ret.
Qed.

Lemma sends_only_NextResponse_json b s : sends_only P (NextResponse_json b s).
Proof.
  unfold NextResponse_json.
  destruct (_ && _); [destruct (null_body_status s)|];
    first [apply sends_only_ret|apply sends_only_throw].
Qed.

Lemma sends_only_toISOString date : sends_only P (toISOString date).
Proof. destruct date; [apply sends_only_ret|apply sends_only_throw]. Qed.
End SendsOnly.

Section FetcherEffects.
Variable env : Env.
Variable w : World.

(** The [try] block of [getCommit] sends requests of the fetcher only
    and leaves the console alone. *)
Lemma getCommit_try_sends includeDetails :
  sends_only (fetch_call env)
    (since ← getISOTimeFiveMinutesAgo w;
     commitListResponse ←
       axios (commits_endpoint w) (commit_list_request env since);
     commits ← await commitListResponse;
     if negb includeDetails then
       branchesResponse ← axios (branches_endpoint w) (branches_request env);
       branchesData ← await branchesResponse;
       let branches := map name branchesData in
       ret (BranchOnlyResult branches)
     else
       promises ← map_async (fetch_detail env w) commits;
       commitDetails ←
         Promise_all promises (completion_order w (length promises));
       ret (Details commitDetails)).
Proof.
  apply sends_only_bind; [apply sends_only_toISOString|]. intros since.
  apply sends_only_bind; [apply sends_only_axios; constructor|]. intros p.
  apply sends_only_bind; [apply sends_only_await|]. intros commits.
  destruct includeDetails; cbn [negb].
  - apply sends_only_bind.
    { apply sends_only_map_async. intros commit. unfold fetch_detail.
      apply sends_only_bind; [apply sends_only_axios; constructor|].
      intros r. apply sends_only_ret. }
    intros promises.
    apply sends_only_bind; [apply sends_only_Promise_all|].
    intros vs. apply sends_only_ret.
  - apply sends_only_bind; [apply sends_only_axios; constructor|]. intros r.
    apply sends_only_bind; [apply sends_only_await|].
    intros bs. apply sends_only_ret.
Qed.

(** What a run of [getCommit] does to the state, in either mode and
    whatever the world answers: it sends requests of the fetcher, and it
    writes to the console exactly when it throws, the error it throws,
    once. *)
Lemma getCommit_effect includeDetails st :
  ∃ calls,
    (getCommit env w includeDetails st).2
    = after (outbound st ++ calls)
            (console_error st ++ logged (getCommit env w includeDetails st).1) ∧
    Forall (fetch_call env) calls.
Proof.
  destruct (getCommit_try_sends includeDetails st) as (calls & Hst & Hcalls).
  exists calls. split; [|done]. unfold getCommit, try_catch. revert Hst.
  match goal with |- (?m st).2 = _ → _ => destruct (m st) as [[v|e|] st'] end;
    cbn; intros ->; cbn; by rewrite ?app_nil_r.
Qed.
End FetcherEffects.

(** ** The route under any world *)

Section RouteAnyWorld.
Variable env : Env.
Variable w : World.
Variable req : NextRequest.

Lemma configured_dec_values :
  ¬ configured env →
  not_value (GITHUB_REPO_OWNER env) = true ∨
  not_value (GITHUB_REPO_NAME env) = true ∨
  not_value (GITHUB_TOKEN env) = true.
Proof.
  intros Hnot.
  destruct (not_value (GITHUB_REPO_OWNER env)) eqn:Ho; [by left|].
  destruct (not_value (GITHUB_REPO_NAME env)) eqn:Hr; [by right; left|].
  destruct (not_value (GITHUB_TOKEN env)) eqn:Ht; [by right; right|].
  destruct Hnot. by repeat split; apply not_value_present.
Qed.

Lemma POST_configured_leaves_gate st :
  configured env → POST env w req st ≠ (Returns misconfiguration, st).
Proof.
  intros Hconf.
  destruct (decide (x_github_event req = Some "push")) as [Hpush|Hpush].
  { rewrite POST_push by done. unfold mbind, M_bind, bind.
    pose proof (appends_getCommit env w true st) as Hfetch.
    destruct (getCommit env w true st) as [[v|e|] st']; [|done..].
    by apply updateCommit_changes_state. }
  destruct (decide (x_github_event req = Some "getBranch")) as [Hbranch|Hbranch].
  { rewrite POST_getBranch by done. unfold mbind, M_bind, bind.
    destruct (getCommit env w false st) as [[v|e|] st']; done. }
  by rewrite POST_other.
Qed.

(** X1. The gate answers, with the misconfiguration reply and the
    state untouched, exactly when the owner, the repository name or the
    token is unset or empty; [BASE_URL] has no part in it. *)
Theorem gate_fires_iff_value_missing st :
  POST env w req st = (Returns misconfiguration, st) ↔ ¬ configured env.
Proof.
  split.
  - intros Hrun Hconf. by eapply POST_configured_leaves_gate.
  - intros Hnot. by apply POST_not_configured, configured_dec_values.
Qed.

(** X2. Whatever the configuration, the request and the answers of the
    world, the calls of a request are requests of the fetcher (the
    commit list, the branches, a commit of the configured repository,
    each with the bearer token), followed by at most one forwarding
    call; the forwarding call is made only for a push whose fetch
    returned, with what the fetch returned. *)
Theorem POST_calls_fetch_then_forward_once :
  ∃ gets,
    Forall (fetch_call env) gets ∧
    (outbound (POST env w req initial).2 = gets ∨
     ∃ data,
       x_github_event req = Some "push" ∧
       (getCommit env w true initial).1 = Returns data ∧
       outbound (POST env w req initial).2
       = (gets ++ [notion_request env data])%list).
Proof.
  unfold POST.
  destruct (_ || _).
  { exists []. split; [done|]. by left. }
  destruct (strict_eq (x_github_event req) "push") eqn:Hpush.
  { apply strict_eq_true in Hpush.
    destruct (getCommit_effect env w true initial) as (gets & Hst & Hgets).
    exists gets. split; [done|]. unfold mbind, M_bind, bind.
    destruct (getCommit env w true initial) as [[v|e|] st']; cbn in Hst;
      subst st'; [|by left..].
    right. exists v. split; [done|]. split; [done|].
    by rewrite updateCommit_outbound. }
  destruct (strict_eq (x_github_event req) "getBranch").
  { destruct (getCommit_effect env w false initial) as (gets & Hst & Hgets).
    exists gets. split; [done|]. left. unfold mbind, M_bind, bind.
    destruct (getCommit env w false initial) as [[v|e|] st']; cbn in Hst;
      by subst st'. }
  exists []. split; [done|]. by left.
Qed.

(** X3. [getCommit] writes to the console exactly when it throws: the
    error it throws, once; a fetch that returns, or never settles,
    logs nothing. *)
Theorem getCommit_logs_what_it_throws includeDetails st :
  console_error (getCommit env w includeDetails st).2
  = (console_error st ++ logged (getCommit env w includeDetails st).1)%list.
Proof.
  destruct (getCommit_effect env w includeDetails st) as (calls & Hst & _).
  by rewrite Hst.
Qed.
End RouteAnyWorld.

(** ** The fetch under any completion order *)

Section FetchAnyOrder.
Variable env : Env.
Variable w : World.

(** The awaited promises of a push are the per-commit answers, each to
    be formatted. *)
Lemma getCommit_details_run commits :
  cutoff_in_range w →
  commits_endpoint w 0 (commit_list_request env (cutoff w)) = Fulfilled commits →
  getCommit env w true initial =
    try_catch
      (commitDetails ←
         Promise_all (then_ format_commit <$> detail_answers env w commits)
                     (completion_order w (length commits));
       ret (Details commitDetails))
      (λ error, _ ← log_error error; throw error)
      (after (commit_list_request env (cutoff w)
                :: (commit_detail_request env <$> commits)) []).
Proof.
  intros Hrange Hlist. unfold getCommit, try_catch.
  erewrite bind_returns; [|by apply getISOTimeFiveMinutesAgo_cutoff].
  erewrite bind_returns; [|reflexivity]. cbn [initial outbound length].
  rewrite Hlist. erewrite bind_returns; [|reflexivity]. cbn [negb].
  erewrite bind_returns; [|apply map_async_fetch_detail].
  cbn [outbound console_error app]. rewrite promises_of_answers.
  unfold detail_answers at 2. by rewrite length_fmap, length_imap.
Qed.

Lemma getCommit_branches_run commits :
  cutoff_in_range w →
  commits_endpoint w 0 (commit_list_request env (cutoff w)) = Fulfilled commits →
  getCommit env w false initial =
    match branches_endpoint w 1 (branches_request env) with
    | Fulfilled branches =>
        (Returns (BranchOnlyResult (name <$> branches)),
         after [commit_list_request env (cutoff w); branches_request env] [])
    | Rejected e =>
        (Throws e,
         after [commit_list_request env (cutoff w); branches_request env] [e])
    end.
Proof.
  intros Hrange Hlist.
  destruct (branches_endpoint w 1 (branches_request env)) as [branches|e] eqn:Hb.
  { by eapply getCommit_branches. }
  unfold getCommit. erewrite try_catch_throws; cycle 1.
  - erewrite bind_returns; [|by apply getISOTimeFiveMinutesAgo_cutoff].
    erewrite bind_returns; [|reflexivity]. cbn [initial outbound length].
    rewrite Hlist. erewrite bind_returns; [|reflexivity]. cbn [negb].
    erewrite bind_returns; [|reflexivity]. cbn [outbound length app].
    rewrite Hb. by erewrite bind_throws.
  - done.
Qed.

Lemma fulfilled_then {A B} (g : A → B) (answers : list (settled A)) vs :
  then_ g <$> answers = Fulfilled <$> vs →
  ∃ ds, answers = Fulfilled <$> ds ∧ vs = g <$> ds.
Proof.
  revert vs. induction answers as [|[d|e] answers IH]; intros [|v vs] Heq;
    try done.
  - by exists [].
  - injection Heq as <- Heq. destruct (IH vs Heq) as (ds & -> & ->).
    by exists (d :: ds).
Qed.

Lemma getCommit_returns_in_range includeDetails v st' :
  getCommit env w includeDetails initial = (Returns v, st') →
  cutoff_in_range w ∧
  ∃ commits,
    commits_endpoint w 0 (commit_list_request env (cutoff w)) = Fulfilled commits.
Proof.
  intros Hrun.
  assert (cutoff_in_range w) as Hrange.
  { unfold cutoff_in_range.
    destruct (Z_le_gt_dec (Z.abs (now w - 300000)) 8640000000000000) as [|Hgt];
      [done|].
    rewrite getCommit_cutoff_out_of_range in Hrun; [done|].
    unfold cutoff_in_range. lia. }
  split; [done|].
  destruct (commits_endpoint w 0 (commit_list_request env (cutoff w)))
    as [commits|e] eqn:Hlist; [by eexists|].
  by rewrite (getCommit_list_rejected env w includeDetails e) in Hrun.
Qed.

(** X4. Whatever the order in which the per-commit requests settle,
    when [getCommit(true)] returns, it returns a list of commit
    details, never a branch list: the commit-list call and every
    per-commit call were fulfilled, the list has one element per stub,
    in the order of the stubs, each the formatted answer for its stub;
    the calls made are the commit-list request and the per-commit
    requests in list order, and nothing was logged. *)
Theorem getCommit_details_only_complete_and_in_order v st' :
  getCommit env w true initial = (Returns v, st') →
  ∃ commits details,
    commits_endpoint w 0 (commit_list_request env (cutoff w))
      = Fulfilled commits ∧
    detail_answers env w commits = Fulfilled <$> details ∧
    v = Details (format_commit <$> details) ∧
    st' = after (commit_list_request env (cutoff w)
                   :: (commit_detail_request env <$> commits)) [].
Proof.
  intros Hrun.
  destruct (getCommit_returns_in_range true v st' Hrun)
    as (Hrange & commits & Hlist).
  exists commits. rewrite (getCommit_details_run commits) in Hrun by done.
  unfold try_catch, mbind, M_bind, bind in Hrun.
  match type of Hrun with
  | context [Promise_all ?ps ?order ?st] =>
      destruct (Promise_all ps order st) as [[vs|e|] st1] eqn:Hall
  end; [|done..].
  injection Hrun as <- <-.
  apply Promise_all_returns in Hall as [Hall ->].
  destruct (fulfilled_then _ _ _ Hall) as (details & Hdetails & ->).
  by exists details.
Qed.

(** X5. When [getCommit(false)] returns, it returns a branch list,
    never commit details: both upstream calls were fulfilled, the
    names are those of the branches answer in its order, and the calls
    made are the commit-list request and the branches request. *)
Theorem getCommit_branches_only v st' :
  getCommit env w false initial = (Returns v, st') →
  ∃ commits branches,
    commits_endpoint w 0 (commit_list_request env (cutoff w))
      = Fulfilled commits ∧
    branches_endpoint w 1 (branches_request env) = Fulfilled branches ∧
    v = BranchOnlyResult (name <$> branches) ∧
    st' = after [commit_list_request env (cutoff w); branches_request env] [].
Proof.
  intros Hrun.
  destruct (getCommit_returns_in_range false v st' Hrun)
    as (Hrange & commits & Hlist).
  exists commits. rewrite (getCommit_branches_run commits) in Hrun by done.
  destruct (branches_endpoint w 1 (branches_request env)) as [branches|e];
    [|done].
  injection Hrun as <- <-. by exists branches.
Qed.
End FetchAnyOrder.

(** ** Failures and edges of a request *)

Section RequestEdges.
Variable env : Env.
Variable w : World.
Variable req : NextRequest.

Lemma rejected_then {A B} (g : A → B) (answers : list (settled A)) j e :
  (then_ g <$> answers) !! j = Some (Rejected e) ↔
  answers !! j = Some (Rejected e).
Proof.
  rewrite list_lookup_fmap. destruct (answers !! j) as [[d|e']|]; cbn;
    naive_solver.
Qed.

Lemma promises_length commits :
  length (then_ format_commit <$> detail_answers env w commits) = length commits.
Proof. unfold detail_answers. by rewrite length_fmap, length_imap. Qed.

(** X6. No timeout guards the fan-out: when one of the per-commit
    requests never settles and none of those that settle is rejected,
    a push is never answered; all the per-commit requests have been
    sent, nothing is forwarded and nothing is logged. *)
Theorem push_pending_while_a_request_never_settles commits k :
  configured env → x_github_event req = Some "push" →
  cutoff_in_range w →
  commits_endpoint w 0 (commit_list_request env (cutoff w)) = Fulfilled commits →
  (k < length commits)%nat →
  k ∉ completion_order w (length commits) →
  (∀ j e, j ∈ completion_order w (length commits) →
          detail_answers env w commits !! j ≠ Some (Rejected e)) →
  POST env w req initial =
    (Hangs,
     after (commit_list_request env (cutoff w)
              :: (commit_detail_request env <$> commits)) []).
Proof.
  intros Hconf Hevent Hrange Hlist Hk Hnever Hfulfilled.
  rewrite POST_push by done. erewrite bind_hangs; [done|].
  rewrite (getCommit_details_run env w commits) by done.
  erewrite try_catch_hangs; [done|]. erewrite bind_hangs; [done|].
  apply (Promise_all_hangs _ _ k).
  - by rewrite promises_length.
  - done.
  - intros j e Hj Hrejected%rejected_then. by eapply Hfulfilled.
Qed.

(** X7. The error a push rejects with is the reason of the per-commit
    request that is the first to be rejected as the requests settle,
    whatever happens to those settling later; all the per-commit
    requests have been sent by then, the error is logged once and
    nothing is forwarded. *)
Theorem push_rejects_with_first_rejection commits pre i post e :
  configured env → x_github_event req = Some "push" →
  cutoff_in_range w →
  commits_endpoint w 0 (commit_list_request env (cutoff w)) = Fulfilled commits →
  completion_order w (length commits) = (pre ++ i :: post)%list →
  detail_answers env w commits !! i = Some (Rejected e) →
  (∀ j e', j ∈ pre → detail_answers env w commits !! j ≠ Some (Rejected e')) →
  POST env w req initial =
    (Throws e,
     after (commit_list_request env (cutoff w)
              :: (commit_detail_request env <$> commits)) [e]).
Proof.
  intros Hconf Hevent Hrange Hlist Horder Hi Hpre.
  rewrite POST_push by done. erewrite bind_throws; [done|].
  rewrite (getCommit_details_run env w commits) by done.
  erewrite try_catch_throws; cycle 1.
  - erewrite bind_throws; [done|]. rewrite Horder.
    apply Promise_all_first_rejection.
    + by apply rejected_then.
    + intros j e' Hj Hrejected%rejected_then. by eapply Hpre.
  - done.
Qed.

(** X8. A push that finds no commit in the last five minutes is not
    cut short: the empty list is forwarded, and the calls are the
    commit-list request and the forwarding of [[]], whatever the
    downstream service answers. *)
Theorem push_without_commits_forwards_empty_list :
  configured env → x_github_event req = Some "push" →
  cutoff_in_range w →
  commits_endpoint w 0 (commit_list_request env (cutoff w)) = Fulfilled [] →
  outbound (POST env w req initial).2
  = [commit_list_request env (cutoff w); notion_request env (Details [])].
Proof.
  intros Hconf Hevent Hrange Hlist. rewrite POST_push by done.
  erewrite bind_returns; cycle 1.
  { by rewrite (getCommit_details_run env w []). }
  by rewrite updateCommit_outbound.
Qed.

(** X9. In branch mode the commit-list call, whose result is not used,
    still decides the request: when it is rejected the branches are
    never requested and [POST] rejects with its error, logged once. *)
Theorem getBranch_rejects_when_commit_list_fails e :
  configured env → x_github_event req = Some "getBranch" →
  cutoff_in_range w →
  commits_endpoint w 0 (commit_list_request env (cutoff w)) = Rejected e →
  POST env w req initial =
    (Throws e, after [commit_list_request env (cutoff w)] [e]).
Proof.
  intros Hconf Hevent Hrange Hlist. rewrite POST_getBranch by done.
  erewrite bind_throws; [done|]. by apply getCommit_list_rejected.
Qed.

(** X10. A getBranch request whose branches call is rejected gets no
    response: [POST] rejects with that error, logged once, after the
    two upstream requests. *)
Theorem getBranch_rejects_when_branches_fail commits e :
  configured env → x_github_event req = Some "getBranch" →
  cutoff_in_range w →
  commits_endpoint w 0 (commit_list_request env (cutoff w)) = Fulfilled commits →
  branches_endpoint w 1 (branches_request env) = Rejected e →
  POST env w req initial =
    (Throws e,
     after [commit_list_request env (cutoff w); branches_request env] [e]).
Proof.
  intros Hconf Hevent Hrange Hlist Hbranches. rewrite POST_getBranch by done.
  erewrite bind_throws; [done|].
  rewrite (getCommit_branches_run env w commits) by done. by rewrite Hbranches.
Qed.

(** X11. When the clock less five minutes is not a time a [Date] can
    hold, a push or getBranch request rejects with the [RangeError] of
    [toISOString], logged once, before any call is made. *)
Theorem POST_rejects_before_any_call_on_invalid_cutoff :
  configured env →
  x_github_event req = Some "push" ∨ x_github_event req = Some "getBranch" →
  ¬ cutoff_in_range w →
  POST env w req initial =
    (Throws (RangeError "Invalid time value"),
     after [] [RangeError "Invalid time value"]).
Proof.
  intros Hconf [Hevent|Hevent] Hrange.
  - rewrite POST_push by done. erewrite bind_throws; [done|].
    by apply getCommit_cutoff_out_of_range.
  - rewrite POST_getBranch by done. erewrite bind_throws; [done|].
    by apply getCommit_cutoff_out_of_range.
Qed.

(** X12. A downstream error response whose status is outside 200..599
    cannot be relayed: building the reply throws inside the [catch]
    block, and the push rejects with the [RangeError] of the [Response]
    constructor, after the forwarding call and with nothing logged by
    the forwarder. *)
Theorem push_rejects_on_unrelayable_status commitDetails st r :
  configured env → x_github_event req = Some "push" →
  getCommit env w true initial = (Returns commitDetails, st) →
  notion_endpoint w (length (outbound st)) (notion_request env commitDetails)
    = Rejected (AxiosError (Some r)) →
  ¬ 200 ≤ status r ≤ 599 →
  POST env w req initial =
    (Throws (RangeError status_range_message),
     after (outbound st ++ [notion_request env commitDetails]) (console_error st)).
Proof.
  intros Hconf Hevent Hfetch Hnotion Hstatus. rewrite POST_push by done.
  erewrite bind_returns; [|done]. erewrite updateCommit_rejected by done.
  unfold NextResponse_json.
  destruct (Z.leb_spec 200 (status r)), (Z.leb_spec (status r) 599);
    cbn [andb]; [lia|done..].
Qed.

(** X13. A downstream error response with a null-body status, 204, 205
    or 304, cannot be relayed either: the reply has a body, building it
    throws a [TypeError] inside the [catch] block, and the push rejects
    with it, after the forwarding call and with nothing logged by the
    forwarder. *)
Theorem push_rejects_on_null_body_status commitDetails st r :
  configured env → x_github_event req = Some "push" →
  getCommit env w true initial = (Returns commitDetails, st) →
  notion_endpoint w (length (outbound st)) (notion_request env commitDetails)
    = Rejected (AxiosError (Some r)) →
  status r = 204 ∨ status r = 205 ∨ status r = 304 →
  ∃ message,
    POST env w req initial =
      (Throws (TypeError message),
       after (outbound st ++ [notion_request env commitDetails])
             (console_error st)).
Proof.
  intros Hconf Hevent Hfetch Hnotion Hstatus. rewrite POST_push by done.
  erewrite bind_returns; [|done]. erewrite updateCommit_rejected by done.
  unfold NextResponse_json.
  destruct Hstatus as [-> | [-> | ->]]; eexists; reflexivity.
Qed.
End RequestEdges.

(** ** The further properties on sample worlds *)

Lemma getCommit_details_only_complete_and_in_order_witness :
  ∃ commits details,
    commits_endpoint Sample.world 0
      (commit_list_request Sample.env (cutoff Sample.world)) = Fulfilled commits ∧
    detail_answers Sample.env Sample.world commits = Fulfilled <$> details ∧
    Details (format_commit <$> Sample.details)
      = Details (format_commit <$> details) ∧
    after (commit_list_request Sample.env (cutoff Sample.world)
             :: (commit_detail_request Sample.env <$> Sample.commits)) []
      = after (commit_list_request Sample.env (cutoff Sample.world)
                 :: (commit_detail_request Sample.env <$> commits)) [].
Proof.
  apply (getCommit_details_only_complete_and_in_order Sample.env Sample.world
           (Details (format_commit <$> Sample.details))
           (after (commit_list_request Sample.env (cutoff Sample.world)
                     :: (commit_detail_request Sample.env <$> Sample.commits)) [])).
  vm_compute. reflexivity.
Defined.

Lemma getCommit_branches_only_witness :
  ∃ commits branches,
    commits_endpoint Sample.world 0
      (commit_list_request Sample.env (cutoff Sample.world)) = Fulfilled commits ∧
    branches_endpoint Sample.world 1 (branches_request Sample.env)
      = Fulfilled branches ∧
    BranchOnlyResult ["main"; "dev"] = BranchOnlyResult (name <$> branches) ∧
    after [commit_list_request Sample.env (cutoff Sample.world);
           branches_request Sample.env] []
      = after [commit_list_request Sample.env (cutoff Sample.world);
               branches_request Sample.env] [].
Proof.
  apply (getCommit_branches_only Sample.env Sample.world
           (BranchOnlyResult ["main"; "dev"])
           (after [commit_list_request Sample.env (cutoff Sample.world);
                   branches_request Sample.env] [])).
  vm_compute. reflexivity.
Defined.

Lemma push_pending_while_a_request_never_settles_witness :
  POST Sample.env Faults.world_third_never_settles Sample.push initial =
    (Hangs,
     after (commit_list_request Sample.env (cutoff Faults.world_third_never_settles)
              :: (commit_detail_request Sample.env <$> Sample.commits)) []).
Proof.
  apply (push_pending_while_a_request_never_settles Sample.env
           Faults.world_third_never_settles Sample.push Sample.commits 2).
  - apply sample_configured.
  - reflexivity.
  - unfold cutoff_in_range. cbn. lia.
  - reflexivity.
  - cbn. lia.
  - cbn. intros Hin.
    repeat (apply elem_of_cons in Hin as [Heq|Hin]; [discriminate|]).
    by apply elem_of_nil in Hin.
  - cbn. intros j e Hin.
    repeat (apply elem_of_cons in Hin as [->|Hin]; [discriminate|]).
    by apply elem_of_nil in Hin.
Defined.

Lemma push_rejects_with_first_rejection_witness :
  POST Sample.env Faults.world_two_details_fail Sample.push initial =
    (Throws (AxiosError (Some Faults.unauthorized)),
     after (commit_list_request Sample.env (cutoff Faults.world_two_details_fail)
              :: (commit_detail_request Sample.env <$> Sample.commits))
           [AxiosError (Some Faults.unauthorized)]).
Proof.
  apply (push_rejects_with_first_rejection Sample.env
           Faults.world_two_details_fail Sample.push Sample.commits
           [] 2%nat [1; 0]%nat (AxiosError (Some Faults.unauthorized))).
  - apply sample_configured.
  - reflexivity.
  - apply sample_cutoff_in_range.
  - reflexivity.
  - reflexivity.
  - reflexivity.
  - intros j e' Hin. by apply elem_of_nil in Hin.
Defined.

Lemma push_without_commits_forwards_empty_list_witness :
  outbound (POST Sample.env Faults.world_no_commits Sample.push initial).2
  = [commit_list_request Sample.env (cutoff Faults.world_no_commits);
     notion_request Sample.env (Details [])].
Proof.
  apply (push_without_commits_forwards_empty_list Sample.env
           Faults.world_no_commits Sample.push).
  - apply sample_configured.
  - reflexivity.
  - apply sample_cutoff_in_range.
  - reflexivity.
Defined.

Lemma getBranch_rejects_when_commit_list_fails_witness :
  POST Sample.env Sample.world_list_fails Sample.getBranch initial =
    (Throws (AxiosError (Some Sample.not_found)),
     after [commit_list_request Sample.env (cutoff Sample.world_list_fails)]
           [AxiosError (Some Sample.not_found)]).
Proof.
  apply (getBranch_rejects_when_commit_list_fails Sample.env
           Sample.world_list_fails Sample.getBranch
           (AxiosError (Some Sample.not_found))).
  - apply sample_configured.
  - reflexivity.
  - apply sample_cutoff_in_range.
  - reflexivity.
Defined.

Lemma getBranch_rejects_when_branches_fail_witness :
  POST Sample.env Faults.world_branches_fail Sample.getBranch initial =
    (Throws (AxiosError (Some Sample.not_found)),
     after [commit_list_request Sample.env (cutoff Faults.world_branches_fail);
            branches_request Sample.env]
           [AxiosError (Some Sample.not_found)]).
Proof.
  apply (getBranch_rejects_when_branches_fail Sample.env
           Faults.world_branches_fail Sample.getBranch Sample.commits
           (AxiosError (Some Sample.not_found))).
  - apply sample_configured.
  - reflexivity.
  - unfold cutoff_in_range. cbn. lia.
  - reflexivity.
  - reflexivity.
Defined.

Lemma POST_rejects_before_any_call_on_invalid_cutoff_witness :
  POST Sample.env Faults.world_clock_out_of_range Sample.push initial =
    (Throws (RangeError "Invalid time value"),
     after [] [RangeError "Invalid time value"]) ∧
  POST Sample.env Faults.world_clock_out_of_range Sample.getBranch initial =
    (Throws (RangeError "Invalid time value"),
     after [] [RangeError "Invalid time value"]).
Proof.
  split.
  - apply (POST_rejects_before_any_call_on_invalid_cutoff Sample.env
             Faults.world_clock_out_of_range Sample.push).
    + apply sample_configured.
    + left. reflexivity.
    + unfold cutoff_in_range. cbn. lia.
  - apply (POST_rejects_before_any_call_on_invalid_cutoff Sample.env
             Faults.world_clock_out_of_range Sample.getBranch).
    + apply sample_configured.
    + right. reflexivity.
    + unfold cutoff_in_range. cbn. lia.
Defined.

Lemma push_rejects_on_unrelayable_status_witness :
  POST Sample.env Faults.world_status_999 Sample.push initial =
    (Throws (RangeError status_range_message),
     after (commit_list_request Sample.env (cutoff Faults.world_status_999)
              :: (commit_detail_request Sample.env <$> Sample.commits)
              ++ [notion_request Sample.env
                    (Details (format_commit <$> Sample.details))])
           []).
Proof.
  apply (push_rejects_on_unrelayable_status Sample.env Faults.world_status_999
           Sample.push (Details (format_commit <$> Sample.details))
           (after (commit_list_request Sample.env (cutoff Faults.world_status_999)
                     :: (commit_detail_request Sample.env <$> Sample.commits)) [])
           Faults.out_of_range_status).
  - apply sample_configured.
  - reflexivity.
  - vm_compute. reflexivity.
  - reflexivity.
  - cbn. lia.
Defined.

Lemma push_rejects_on_null_body_status_witness :
  ∃ message,
    POST Sample.env Faults.world_status_304 Sample.push initial =
      (Throws (TypeError message),
       after (commit_list_request Sample.env (cutoff Faults.world_status_304)
                :: (commit_detail_request Sample.env <$> Sample.commits)
                ++ [notion_request Sample.env
                      (Details (format_commit <$> Sample.details))])
             []).
Proof.
  apply (push_rejects_on_null_body_status Sample.env Faults.world_status_304
           Sample.push (Details (format_commit <$> Sample.details))
           (after (commit_list_request Sample.env (cutoff Faults.world_status_304)
                     :: (commit_detail_request Sample.env <$> Sample.commits)) [])
           Faults.not_modified).
  - apply sample_configured.
  - reflexivity.
  - vm_compute. reflexivity.
  - reflexivity.
  - right. right. reflexivity.
Defined.
